(** * pr-conventional-commit-labeler: the label resolution of [action/labels.py]

    A shallow embedding of [Labels.run] and [main] of
    [pr-conventional-commit-labeler/action/labels.py], and the properties of
    the label set it computes.

    Python [str] is [string]; a Python [set] of label names is a
    [gset string]; the tables of the TOML label configuration are records;
    the calls to the GitHub API are recorded in a trace. *)

From Stdlib Require Import ZArith Ascii String List Bool Lia Sorted.
From stdpp Require Import base decidable list gmap strings sets.
Import ListNotations.
Local Open Scope Z_scope.
Local Open Scope string_scope.
Local Open Scope list_scope.

(** ** Data model *)

(** One entry of [collector.commit_types()]: the tables of [changelog.toml]
    (or pontos' built-in ones), read with [commit_type["message"]] and
    [commit_type["group"]]. *)
Record CommitType := {
  ct_message : string;
  ct_group : string;
}.

(** One table of [labels] in the label configuration.  [l["name"]] needs the
    key [name]; [priority] is read with [x.get("priority", 0)], so it may be
    absent.  A priority is an integer. *)
Record LabelDef := {
  name : string;
  priority : option Z;
}.

(** One table of [groups] in the label configuration, read with
    [x["group"]] and [x["label"]]. *)
Record GroupMapping := {
  group : string;
  label : string;
}.

(** The parsed label configuration [cclc]. *)
Record Config := {
  labels : list LabelDef;
  groups : list GroupMapping;
  disable_on : option string;
  only_highest_priority : bool;
}.

(** ** The regular expression engine

    [re] is a library: [run] uses it through [re.compile(..., flags=re.I)]
    and [matcher.match(c)] only.  The labeler is written against this
    interface; the engine for the patterns the labeler builds from plain
    keywords is [Re.engine] below. *)
Class Regex := {
  pattern : Type;
  (** [re.compile(s, flags=re.I)]; [None] when it raises [re.error]. *)
  re_compile : string -> option pattern;
  (** [p.match(s)] is not [None]. *)
  re_match : pattern -> string -> bool;
}.

(** ** Exceptions and API calls *)

(** The three [LabelsError]s that [run] raises, with the values that its
    message is formatted from. *)
Inductive LabelsError :=
  | group_not_found (g : string) (changelog_groups : list string)
      (* f"{group} not found in {changelog_groups}" *)
  | label_not_found (l : string) (labels_key : gset string)
      (* f"{label} not found in {labels_key}" *)
  | no_pr_identifier.
      (* "no PR identifier found" *)

Inductive exn :=
  | Labels_error (e : LabelsError)
  | re_error            (* [re.compile] rejects a pattern *)
  | StopIteration       (* [next] on an exhausted generator *)
  | HTTPStatusError.    (* [response.raise_for_status()] *)

(** The requests sent to the platform. *)
Inductive api_call :=
  | labels_get_all
  | pull_requests_commits
  | labels_delete
  | labels_set_all (ls : gset string).

Definition mutates (c : api_call) : bool :=
  match c with
  | labels_delete | labels_set_all _ => true
  | labels_get_all | pull_requests_commits => false
  end.

Inductive outcome :=
  | Return_
  | Raise (e : exn).

(** What one invocation reads from outside: the commit types, the label
    configuration, and the answers of the API.  Of the failures of the
    platform only the one that [run] itself checks for is part of it, the
    status of the DELETE request. *)
Record Env := {
  commit_types : list CommitType;
  cclc : Config;
  pr_labels : list string;       (* what [api.labels.get_all] yields *)
  pr_commits : list string;      (* the messages of [api.pull_requests.commits] *)
  delete_ok : bool;              (* the DELETE request answers with a success status *)
}.

(** Python truthiness of an optional string: [None] and the empty string are false. *)
Definition truthy (o : option string) : bool :=
  match o with
  | Some (String _ _) => true
  | Some EmptyString | None => false
  end.

(** [b.startswith(a)]. *)
Fixpoint starts_with (a b : string) : bool :=
  match a, b with
  | EmptyString, _ => true
  | String x a', String y b' => Ascii.eqb x y && starts_with a' b'
  | String _ _, EmptyString => false
  end.

(** [a in b] on Python strings: [a] occurs in [b] as a substring, that is,
    some suffix of [b] starts with [a]. *)
Fixpoint contains (a b : string) : bool :=
  starts_with a b ||
  match b with
  | EmptyString => false
  | String _ b' => contains a b'
  end.

(** ** Loading: lines 78-111 of [run] *)

Section Labeler.
Context {R : Regex}.

Definition labels_key_of (ls : list LabelDef) : gset string :=
  list_to_set (map name ls).

(** The loop "verify that groups and labels are known". *)
Fixpoint verify (changelog_groups : list string) (labels_key : gset string)
    (gs : list GroupMapping) : option LabelsError :=
  match gs with
  | [] => None
  | x :: gs' =>
      if negb (bool_decide (group x ∈ changelog_groups)) then
        Some (group_not_found (group x) changelog_groups)
      else if negb (bool_decide (label x ∈ labels_key)) then
        Some (label_not_found (label x) labels_key)
      else verify changelog_groups labels_key gs'
  end.

(** The comprehension [expressions]: one compiled pattern per commit type. *)
Fixpoint expressions (cts : list CommitType) : option (list (string * pattern)) :=
  match cts with
  | [] => Some []
  | ct :: cts' =>
      match re_compile (ct_message ct ++ "\s?[:|-]") with
      | None => None
      | Some p =>
          match expressions cts' with
          | None => None
          | Some es => Some ((ct_group ct, p) :: es)
          end
      end
  end.

(** [next(x for (g, x) in expressions if g == g_name)]. *)
Fixpoint next_matcher (es : list (string * pattern)) (g_name : string) : option pattern :=
  match es with
  | [] => None
  | (g, x) :: es' => if String.eqb g g_name then Some x else next_matcher es' g_name
  end.

(** The inner loop [for l in labels: if g["label"] == l["name"]: ... break]. *)
Fixpoint first_label (ls : list LabelDef) (lbl : string) : option LabelDef :=
  match ls with
  | [] => None
  | l :: ls' => if String.eqb lbl (name l) then Some l else first_label ls' lbl
  end.

(** The loop that fills [lookup]. *)
Fixpoint build_lookup (es : list (string * pattern)) (ls : list LabelDef)
    (gs : list GroupMapping) : exn + list (pattern * LabelDef) :=
  match gs with
  | [] => inr []
  | g :: gs' =>
      match first_label ls (label g) with
      | None => build_lookup es ls gs'
      | Some l =>
          match next_matcher es (group g) with
          | None => inl StopIteration
          | Some matcher =>
              match build_lookup es ls gs' with
              | inl e => inl e
              | inr lookup => inr ((matcher, l) :: lookup)
              end
          end
      end
  end.

(** Everything [run] does before it opens the API session. *)
Definition load (cts : list CommitType) (c : Config) : exn + list (pattern * LabelDef) :=
  let changelog_groups := map ct_group cts in
  let labels_key := labels_key_of (labels c) in
  match verify changelog_groups labels_key (groups c) with
  | Some e => inl (Labels_error e)
  | None =>
      match expressions cts with
      | None => inl re_error
      | Some es => build_lookup es (labels c) (groups c)
      end
  end.

(** ** Resolution: lines 129-151 of [run] *)

(** [for c in commits: if matcher.match(c): ... break]. *)
Fixpoint any_match (matcher : pattern) (commits : list string) : bool :=
  match commits with
  | [] => false
  | c :: commits' => if re_match matcher c then true else any_match matcher commits'
  end.

(** The loop over [lookup] that collects the labels of the matchers that
    match some commit. *)
Fixpoint collect (lookup : list (pattern * LabelDef)) (commits : list string)
    : list LabelDef :=
  match lookup with
  | [] => []
  | (matcher, l) :: lookup' =>
      if any_match matcher commits then l :: collect lookup' commits
      else collect lookup' commits
  end.

(** The sort key [lambda x: x.get("priority", 0)]. *)
Definition key (l : LabelDef) : Z := default 0 (priority l).

(** [sorted(labels, key=..., reverse=True)]: descending, and stable also
    with [reverse]: elements of equal key stay in their order.  An element
    goes in front of the first one whose key is not larger. *)
Fixpoint insert_desc (x : LabelDef) (l : list LabelDef) : list LabelDef :=
  match l with
  | [] => [x]
  | y :: l' => if (key x <? key y)%Z then y :: insert_desc x l' else x :: y :: l'
  end.

Fixpoint sorted_desc (l : list LabelDef) : list LabelDef :=
  match l with
  | [] => []
  | x :: l' => insert_desc x (sorted_desc l')
  end.

(** The labels that survive: sorted, and cut to [labels[:1]] when
    [only_highest] is set. *)
Definition surviving (only_highest : bool) (lookup : list (pattern * LabelDef))
    (commits : list string) : list LabelDef :=
  let ls := sorted_desc (collect lookup commits) in
  if only_highest then firstn 1 ls else ls.

Definition matched_names (only_highest : bool) (lookup : list (pattern * LabelDef))
    (commits : list string) : gset string :=
  list_to_set (map name (surviving only_highest lookup commits)).

Definition unique_labels (original_pr_labels labels_key : gset string) : gset string :=
  original_pr_labels ∖ labels_key.

(** The set passed to [set_all]. *)
Definition resolve (c : Config) (lookup : list (pattern * LabelDef))
    (commits : list string) (original_pr_labels : gset string) : gset string :=
  matched_names (only_highest_priority c) lookup commits
  ∪ unique_labels original_pr_labels (labels_key_of (labels c)).

(** ** The run *)

(** [disable_on and any(disable_on in x for x in original_pr_labels)]. *)
Definition disabled (d : option string) (original_pr_labels : gset string) : bool :=
  truthy d &&
  match d with
  | Some s => existsb (contains s) (elements original_pr_labels)
  | None => false
  end.

(** The body of [async with self.api as api]. *)
Definition session (pull_request : option string) (e : Env)
    (lookup : list (pattern * LabelDef)) : list api_call * outcome :=
  if negb (truthy pull_request) then ([], Raise (Labels_error no_pr_identifier))
  else
    let original_pr_labels : gset string := list_to_set (pr_labels e) in
    if disabled (disable_on (cclc e)) original_pr_labels then
      ([labels_get_all], Return_)
    else
      let ls := resolve (cclc e) lookup (pr_commits e) original_pr_labels in
      if delete_ok e then
        ([labels_get_all; pull_requests_commits; labels_delete; labels_set_all ls],
         Return_)
      else
        ([labels_get_all; pull_requests_commits; labels_delete],
         Raise HTTPStatusError).

(** [Labels.run]: the API calls it makes, in order, and how it ends. *)
Definition run (pull_request : option string) (e : Env) : list api_call * outcome :=
  match load (commit_types e) (cclc e) with
  | inl x => ([], Raise x)
  | inr lookup => session pull_request e lookup
  end.

(** ** The command line *)

(** The flags as given on the command line; [None] is a flag left out. *)
Record Argv := {
  arg_token : option string;
  arg_label_config : option string;
  arg_repository : option string;
  arg_working_directory : option string;
  arg_pull_request : option string;
}.

(** [parse_arguments]: every flag but [--token] is [required=True]; the
    parser ends the process with status 2 when one of them is left out. *)
Definition parse_arguments (a : Argv) : option Argv :=
  match arg_label_config a, arg_repository a, arg_working_directory a,
        arg_pull_request a with
  | Some _, Some _, Some _, Some _ => Some a
  | _, _, _, _ => None
  end.

(** What the process leaves behind. *)
Record Exit := {
  calls : list api_call;
  console_error : option LabelsError;   (* [Console.error(f"❌ {e}")] *)
  exit_code : Z;
}.

(** [main]: status 0 after [run] returns, [Console.error] and status 1 on a
    [LabelsError]; any other exception leaves [main] and the interpreter
    ends with its traceback and status 1. *)
Definition main (a : Argv) (e : Env) : Exit :=
  match parse_arguments a with
  | None => {| calls := []; console_error := None; exit_code := 2 |}
  | Some args =>
      match run (arg_pull_request args) e with
      | (tr, Return_) => {| calls := tr; console_error := None; exit_code := 0 |}
      | (tr, Raise (Labels_error x)) =>
          {| calls := tr; console_error := Some x; exit_code := 1 |}
      | (tr, Raise _) => {| calls := tr; console_error := None; exit_code := 1 |}
      end
  end.

End Labeler.

(** ** The patterns of the labeler in [re]

    The engine for the patterns that [expressions] builds from a keyword:
    ordinary characters, [^], [\s], a postfix [?] on one character, and a
    character set [[...]] of characters and ranges, all under [re.I].  A
    character is a code point below 256.  [compile] answers [None] for a
    pattern that [re] rejects and for any syntax outside this fragment. *)
Module Re.

Definition code (c : ascii) : N := N_of_ascii c.

(** [str.isspace] below 256, which is what [\s] accepts in a [str] pattern. *)
Definition isspace (c : ascii) : bool :=
  let n := code c in
  ((9 <=? n) && (n <=? 13) || (28 <=? n) && (n <=? 32) || (n =? 133) || (n =? 160))%N.

(** The lower case of a code point below 256: A-Z and the capital letters
    of Latin-1 move up by 32. *)
Definition tolower (c : ascii) : ascii :=
  let n := code c in
  if ((65 <=? n) && (n <=? 90)
      || (192 <=? n) && (n <=? 222) && negb (n =? 215))%N
  then ascii_of_N (n + 32) else c.

(** What consumes one character. *)
Inductive charset :=
  | Lit (a : ascii)
  | Space
  | Class (ranges : list (ascii * ascii)).

Inductive atom :=
  | Bol                    (* ^ *)
  | One (s : charset)
  | Opt (s : charset).     (* s? *)

(** The characters from [lo] to [hi]. *)
Definition between (lo hi : ascii) : list ascii :=
  map (fun i => ascii_of_nat (nat_of_ascii lo + i))
      (seq 0 (S (nat_of_ascii hi) - nat_of_ascii lo)).

(** Under [re.I] a set holds the lower case of its members and the
    character is lowered before it is looked up. *)
Definition accepts (s : charset) (c : ascii) : bool :=
  match s with
  | Lit a => Ascii.eqb (tolower a) (tolower c)
  | Space => isspace c
  | Class ranges =>
      existsb (fun '(lo, hi) =>
                 existsb (fun a => Ascii.eqb (tolower a) (tolower c)) (between lo hi))
              ranges
  end.

(** Matching at the current position; [at_start] says whether the position
    is the start of the string. *)
Fixpoint match_here (r : list atom) (at_start : bool) (s : string) : bool :=
  match r with
  | [] => true
  | Bol :: r' => at_start && match_here r' at_start s
  | One cs :: r' =>
      match s with
      | String c s' => accepts cs c && match_here r' false s'
      | EmptyString => false
      end
  | Opt cs :: r' =>
      match s with
      | String c s' => accepts cs c && match_here r' false s'
      | EmptyString => false
      end
      || match_here r' at_start s
  end.

(** [p.match(s)]: a match that starts at the start of [s]. *)
Definition matches (r : list atom) (s : string) : bool := match_here r true s.

(** The parser reads the pattern one character at a time. *)
Inductive pstate :=
  | Top
  | Esc                                                  (* after a backslash *)
  | Cls (rs : list (ascii * ascii)) (last : option ascii) (* inside [...] *)
  | ClsDash (rs : list (ascii * ascii)) (lo : ascii).     (* after lo- inside [...] *)

Definition commit (last : option ascii) (rs : list (ascii * ascii))
    : list (ascii * ascii) :=
  match last with
  | Some a => (a, a) :: rs
  | None => rs
  end.

(** The characters with a meaning of their own outside a set. *)
Definition special (c : ascii) : bool :=
  existsb (Ascii.eqb c)
    ["."; "^"; "$"; "*"; "+"; "?"; "{"; "}"; "["; "]"; "\"; "|"; "("; ")"]%char.

Definition pstep (st : pstate) (acc : list atom) (c : ascii)
    : option (pstate * list atom) :=
  match st with
  | Top =>
      if Ascii.eqb c "\" then Some (Esc, acc)
      else if Ascii.eqb c "[" then Some (Cls [] None, acc)
      else if Ascii.eqb c "^" then Some (Top, Bol :: acc)
      else if Ascii.eqb c "?" then
        match acc with
        | One cs :: acc' => Some (Top, Opt cs :: acc')
        | _ => None
        end
      else if special c then None
      else Some (Top, One (Lit c) :: acc)
  | Esc =>
      if Ascii.eqb c "s" then Some (Top, One Space :: acc) else None
  | Cls rs last =>
      if Ascii.eqb c "]" then
        match rs, last with
        | [], None => None
        | _, _ => Some (Top, One (Class (rev (commit last rs))) :: acc)
        end
      else if Ascii.eqb c "\" then None
      else if Ascii.eqb c "-" then
        match last with
        | Some lo => Some (ClsDash rs lo, acc)
        | None => Some (Cls rs (Some c), acc)
        end
      else if Ascii.eqb c "^" then
        match rs, last with
        | [], None => None
        | _, _ => Some (Cls (commit last rs) (Some c), acc)
        end
      else Some (Cls (commit last rs) (Some c), acc)
  | ClsDash rs lo =>
      if Ascii.eqb c "]" then
        Some (Top, One (Class (rev (("-", "-") :: (lo, lo) :: rs)%char)) :: acc)
      else if Ascii.eqb c "\" then None
      else if (code lo <=? code c)%N then Some (Cls ((lo, c) :: rs) None, acc)
      else None
  end.

Fixpoint parse (st : pstate) (acc : list atom) (s : string) : option (list atom) :=
  match s with
  | EmptyString =>
      match st with
      | Top => Some (rev acc)
      | _ => None
      end
  | String c s' =>
      match pstep st acc c with
      | Some (st', acc') => parse st' acc' s'
      | None => None
      end
  end.

Definition compile (s : string) : option (list atom) := parse Top [] s.

Definition engine : Regex :=
  {| pattern := list atom; re_compile := compile; re_match := matches |}.

(** A keyword: no character of it is special. *)
Fixpoint plain (t : string) : bool :=
  match t with
  | EmptyString => true
  | String c t' => negb (special c) && plain t'
  end.

(** What [compile] makes of a keyword and of the tail [\s?[:|-]] that
    [expressions] puts behind it. *)
Fixpoint literal (t : string) : list atom :=
  match t with
  | EmptyString => []
  | String c t' => One (Lit c) :: literal t'
  end.

Definition tail : list atom :=
  [Opt Space; One (Class [(":", ":"); ("|", "|"); ("-", "-")]%char)].

(** [u] is [t] up to the case of its letters. *)
Fixpoint same_letters (t u : string) : bool :=
  match t, u with
  | EmptyString, EmptyString => true
  | String a t', String b u' => Ascii.eqb (tolower a) (tolower b) && same_letters t' u'
  | _, _ => false
  end.

End Re.

(** ** What an error names, and sample inputs *)

(** [err] names a reference of [gs] that is missing: a group that is not in
    [changelog_groups], or a label that is not in [labels_key]. *)
Definition names_missing (changelog_groups : list string) (labels_key : gset string)
    (gs : list GroupMapping) (err : LabelsError) : Prop :=
  match err with
  | group_not_found g known =>
      known = changelog_groups /\ (g ∉ changelog_groups) /\
      (exists x, x ∈ gs /\ group x = g)
  | label_not_found l known =>
      known = labels_key /\ (l ∉ labels_key) /\
      (exists x, x ∈ gs /\ label x = l)
  | no_pr_identifier => False
  end.

(** Descending in the sort key. *)
Definition descending : list LabelDef -> Prop :=
  StronglySorted (fun a b => (key b <= key a)%Z).

Module Sample.

Definition types : list CommitType :=
  [ {| ct_message := "feat"; ct_group := "feat" |};
    {| ct_message := "fix"; ct_group := "fix" |};
    {| ct_message := "docs"; ct_group := "docs" |} ].

(** Three labels of priorities 10, 5 and 1, one per commit type. *)
Definition three_labels (n10 n5 n1 : string) : list LabelDef :=
  [ {| name := n10; priority := Some 10 |};
    {| name := n5; priority := Some 5 |};
    {| name := n1; priority := Some 1 |} ].

Definition three_groups (n10 n5 n1 : string) : list GroupMapping :=
  [ {| group := "feat"; label := n10 |};
    {| group := "fix"; label := n5 |};
    {| group := "docs"; label := n1 |} ].

Definition config (n10 n5 n1 : string) (d : option string) (only : bool) : Config :=
  {| labels := three_labels n10 n5 n1;
     groups := three_groups n10 n5 n1;
     disable_on := d;
     only_highest_priority := only |}.

Definition commits : list string := ["feat: a"; "fix: b"; "docs: c"].

(** The three labels and groups of [config], in another order: the label
    of priority 10 is neither the first label nor the label of the first
    group. *)
Definition shuffled_config (only : bool) : Config :=
  {| labels := [ {| name := "documentation"; priority := Some 1 |};
                 {| name := "enhancement"; priority := Some 10 |};
                 {| name := "bug"; priority := Some 5 |} ];
     groups := [ {| group := "docs"; label := "documentation" |};
                 {| group := "fix"; label := "bug" |};
                 {| group := "feat"; label := "enhancement" |} ];
     disable_on := None;
     only_highest_priority := only |}.

(** Two labels of priority 5 and one without a priority.  Among the labels
    [enhancement] comes before [bug]; among the groups the one of [bug] comes
    before the one of [enhancement], and the one of the label without a
    priority comes first. *)
Definition tied_config (only : bool) : Config :=
  {| labels := [ {| name := "enhancement"; priority := Some 5 |};
                 {| name := "bug"; priority := Some 5 |};
                 {| name := "documentation"; priority := None |} ];
     groups := [ {| group := "docs"; label := "documentation" |};
                 {| group := "fix"; label := "bug" |};
                 {| group := "feat"; label := "enhancement" |} ];
     disable_on := None;
     only_highest_priority := only |}.

Definition env (d : option string) (only : bool) (current msgs : list string) : Env :=
  {| commit_types := types;
     cclc := config "enhancement" "bug" "documentation" d only;
     pr_labels := current;
     pr_commits := msgs;
     delete_ok := true |}.

(** A configuration whose last group refers to a label that is not defined. *)
Definition bad_env (d : option string) : Env :=
  {| commit_types := types;
     cclc := {| labels := three_labels "enhancement" "bug" "documentation";
                groups := three_groups "enhancement" "bug" "documentation"
                          ++ [ {| group := "fix"; label := "regression" |} ];
                disable_on := d;
                only_highest_priority := false |};
     pr_labels := ["bug"];
     pr_commits := commits;
     delete_ok := true |}.


Definition argv (pr : option string) : Argv :=
  {| arg_token := None;
     arg_label_config := Some "labels.toml";
     arg_repository := Some "greenbone/actions";
     arg_working_directory := Some ".";
     arg_pull_request := pr |}.

End Sample.

(** ** Variations of the inputs *)

(** The same invocation on a pull request that carries the labels [l]. *)
Definition with_labels (e : Env) (l : list string) : Env :=
  {| commit_types := commit_types e;
     cclc := cclc e;
     pr_labels := l;
     pr_commits := pr_commits e;
     delete_ok := delete_ok e |}.

(** The configuration with one more table at the end of [labels]. *)
Definition with_extra_label (c : Config) (l : LabelDef) : Config :=
  {| labels := labels c ++ [l];
     groups := groups c;
     disable_on := disable_on c;
     only_highest_priority := only_highest_priority c |}.

(** A group mapping whose two references are known. *)
Definition known_reference (changelog_groups : list string) (labels_key : gset string)
    (x : GroupMapping) : Prop :=
  group x ∈ changelog_groups /\ label x ∈ labels_key.

(** Membership in a list that is written out. *)
Ltac in_list :=
  repeat first [apply list_elem_of_here | apply list_elem_of_further].

(** ** Properties of loading *)

Section Properties.
Context {R : Regex}.

Lemma first_label_spec (ls : list LabelDef) (n : string) (l : LabelDef) :
  first_label ls n = Some l -> l ∈ ls /\ name l = n.
Proof.
  induction ls as [|a ls IH]; simpl; [discriminate|].
  destruct (String.eqb n (name a)) eqn:E.
  - intros [= <-]. apply String.eqb_eq in E. split; [left | done].
  - intros H. destruct (IH H) as [? ?]. split; [by right | done].
Qed.

Lemma next_matcher_spec (es : list (string * pattern)) (g : string) (m : pattern) :
  next_matcher es g = Some m -> (g, m) ∈ es.
Proof.
  induction es as [|[g' x] es IH]; simpl; [discriminate|].
  destruct (String.eqb g' g) eqn:E.
  - intros [= <-]. apply String.eqb_eq in E. subst. left.
  - intros H. right. auto.
Qed.

Lemma build_lookup_spec (es : list (string * pattern)) (ls : list LabelDef)
    (gs : list GroupMapping) (lookup : list (pattern * LabelDef)) :
  build_lookup es ls gs = inr lookup ->
  forall m l, (m, l) ∈ lookup -> l ∈ ls /\ exists g, (g, m) ∈ es.
Proof.
  revert lookup. induction gs as [|g gs IH]; simpl; intros lookup.
  - intros [= <-] m l H. by apply elem_of_nil in H.
  - destruct (first_label ls (label g)) as [l0|] eqn:El; [|by apply IH].
    destruct (next_matcher es (group g)) as [m0|] eqn:Em; [|discriminate].
    destruct (build_lookup es ls gs) as [?|lookup']; [discriminate|].
    intros [= <-] m l H. apply elem_of_cons in H as [[= -> ->]|H].
    + split; [by apply first_label_spec in El as [? _]|].
      exists (group g). by apply next_matcher_spec.
    + by apply (IH lookup').
Qed.

Lemma load_spec (cts : list CommitType) (c : Config) (lookup : list (pattern * LabelDef)) :
  load cts c = inr lookup ->
  exists es,
    verify (map ct_group cts) (labels_key_of (labels c)) (groups c) = None /\
    expressions cts = Some es /\
    build_lookup es (labels c) (groups c) = inr lookup.
Proof.
  unfold load.
  destruct (verify _ _ _); [discriminate|].
  destruct (expressions cts) as [es|]; [|discriminate].
  intros H. by exists es.
Qed.

(** ** Properties of resolution *)

Lemma any_match_spec (m : pattern) (commits : list string) :
  any_match m commits = true <-> exists c, c ∈ commits /\ re_match m c = true.
Proof.
  induction commits as [|c cs IH]; simpl.
  - split; [discriminate|]. intros (c & H & _). by apply elem_of_nil in H.
  - destruct (re_match m c) eqn:E.
    + split; [|done]. intros _. exists c. split; [left | done].
    + rewrite IH. split.
      * intros (c' & ? & ?). exists c'. split; [by right | done].
      * intros (c' & H & ?). apply elem_of_cons in H as [->|H]; [congruence|].
        by exists c'.
Qed.

Lemma collect_spec (lookup : list (pattern * LabelDef)) (commits : list string)
    (l : LabelDef) :
  l ∈ collect lookup commits <->
  exists m, (m, l) ∈ lookup /\ any_match m commits = true.
Proof.
  induction lookup as [|[m0 l0] lookup IH]; simpl.
  - split; [intros H; by apply elem_of_nil in H|].
    intros (m & H & _). by apply elem_of_nil in H.
  - destruct (any_match m0 commits) eqn:E.
    + rewrite elem_of_cons, IH. split.
      * intros [->|(m & ? & ?)]; [exists m0; split; [left | done]|].
        exists m. split; [by right | done].
      * intros (m & H & ?). apply elem_of_cons in H as [[= -> ->]|H]; [by left|].
        right. by exists m.
    + rewrite IH. split.
      * intros (m & ? & ?). exists m. split; [by right | done].
      * intros (m & H & ?). apply elem_of_cons in H as [[= -> ->]|H]; [congruence|].
        by exists m.
Qed.

Lemma insert_desc_perm (x : LabelDef) (l : list LabelDef) :
  insert_desc x l ≡ₚ x :: l.
Proof.
  induction l as [|y l IH]; simpl; [done|].
  destruct (key x <? key y)%Z; [|done].
  rewrite IH. apply Permutation_swap.
Qed.

Lemma sorted_desc_perm (l : list LabelDef) : sorted_desc l ≡ₚ l.
Proof.
  induction l as [|x l IH]; simpl; [done|].
  by rewrite insert_desc_perm, IH.
Qed.

Lemma surviving_collected (only : bool) (lookup : list (pattern * LabelDef))
    (commits : list string) (l : LabelDef) :
  l ∈ surviving only lookup commits -> l ∈ collect lookup commits.
Proof.
  unfold surviving. intros H.
  rewrite <- (sorted_desc_perm (collect lookup commits)).
  destruct only; [|done].
  by apply (subseteq_take 1).
Qed.

Lemma matched_names_spec (only : bool) (lookup : list (pattern * LabelDef))
    (commits : list string) (n : string) :
  n ∈ matched_names only lookup commits <->
  exists l, l ∈ surviving only lookup commits /\ name l = n.
Proof.
  unfold matched_names. rewrite elem_of_list_to_set, list_elem_of_fmap.
  split; intros (l & ? & ?); exists l; done.
Qed.

Lemma labels_key_spec (ls : list LabelDef) (n : string) :
  n ∈ labels_key_of ls <-> exists l, l ∈ ls /\ name l = n.
Proof.
  unfold labels_key_of. rewrite elem_of_list_to_set, list_elem_of_fmap.
  split; intros (l & ? & ?); exists l; done.
Qed.

(** Every matched name is a configured label name, once [lookup] comes
    from the configuration. *)
Lemma matched_in_universe (c : Config) (es : list (string * pattern))
    (lookup : list (pattern * LabelDef)) (commits : list string) (only : bool) :
  build_lookup es (labels c) (groups c) = inr lookup ->
  matched_names only lookup commits ⊆ labels_key_of (labels c).
Proof.
  intros Hb n Hn. apply matched_names_spec in Hn as (l & Hl & <-).
  apply surviving_collected, collect_spec in Hl as (m & Hm & _).
  apply labels_key_spec. exists l. split; [|done].
  by destruct (build_lookup_spec _ _ _ _ Hb m l Hm).
Qed.

End Properties.

(** ** The resolved label set *)

Section Resolution.
Context {R : Regex}.

Lemma run_set_all (pull_request : option string) (e : Env) (ls : gset string) :
  labels_set_all ls ∈ (run pull_request e).1 ->
  exists lookup,
    load (commit_types e) (cclc e) = inr lookup /\
    ls = resolve (cclc e) lookup (pr_commits e) (list_to_set (pr_labels e)).
Proof.
  unfold run. destruct (load _ _) as [x|lookup]; simpl.
  - intros H. by apply elem_of_nil in H.
  - intros H. exists lookup. split; [done|]. revert H. unfold session.
    destruct (negb (truthy pull_request)); simpl; [by intros ?%elem_of_nil|].
    destruct (disabled _ _); simpl.
    + intros H. apply elem_of_cons in H as [?|?%elem_of_nil]; done.
    + destruct (delete_ok e); simpl; intros H;
        repeat (apply elem_of_cons in H as [H|H]; [try discriminate|]);
        try (by apply elem_of_nil in H).
      by injection H.
Qed.

(** C1: whatever the configuration, the commits and the current labels are,
    the set that the run hands to [set_all] is the resolved set, and it
    contains every current label of the pull request whose name is not a
    configured label name: no unmanaged label is dropped. *)
Theorem unmanaged_labels_kept (pull_request : option string) (e : Env)
    (ls : gset string) :
  labels_set_all ls ∈ (run pull_request e).1 ->
  (exists lookup,
     load (commit_types e) (cclc e) = inr lookup /\
     ls = resolve (cclc e) lookup (pr_commits e) (list_to_set (pr_labels e))) /\
  unique_labels (list_to_set (pr_labels e)) (labels_key_of (labels (cclc e))) ⊆ ls.
Proof.
  intros (lookup & Hl & ->)%run_set_all. split; [by exists lookup|].
  unfold resolve. apply union_subseteq_r.
Qed.

(** C9: the resolved set is the union of the matched names and of
    [unique_labels]; the matched names lie inside the configured label names,
    [unique_labels] lies outside, so the two parts are disjoint. *)
Theorem resolved_parts_disjoint (cts : list CommitType) (c : Config)
    (lookup : list (pattern * LabelDef)) (commits : list string)
    (original_pr_labels : gset string) :
  load cts c = inr lookup ->
  let universe := labels_key_of (labels c) in
  let matched := matched_names (only_highest_priority c) lookup commits in
  let unique := unique_labels original_pr_labels universe in
  resolve c lookup commits original_pr_labels = matched ∪ unique /\
  matched ⊆ universe /\
  unique = original_pr_labels ∖ universe /\
  unique ## universe /\
  matched ## unique.
Proof.
  intros (es & _ & _ & Hb)%load_spec. simpl.
  pose proof (matched_in_universe c es lookup commits (only_highest_priority c) Hb).
  unfold resolve, unique_labels. repeat split; [set_solver..].
Qed.

Lemma collect_nil (lookup : list (pattern * LabelDef)) (commits : list string) :
  (forall m l, (m, l) ∈ lookup -> any_match m commits = false) ->
  collect lookup commits = [].
Proof.
  induction lookup as [|[m l] lookup IH]; simpl; [done|]. intros H.
  rewrite (H m l) by left. apply IH. intros m' l' ?. apply (H m' l'). by right.
Qed.

(** C6: when no commit message matches the pattern of any commit type (so
    also when there is no commit), the resolved set is exactly
    [unique_labels], that is, the current labels less the configured label
    names: every configured label is cleared and nothing else changes. *)
Theorem no_match_leaves_unique (cts : list CommitType) (c : Config)
    (es : list (string * pattern)) (lookup : list (pattern * LabelDef))
    (commits : list string) (original_pr_labels : gset string) :
  expressions cts = Some es ->
  build_lookup es (labels c) (groups c) = inr lookup ->
  (forall g p m, (g, p) ∈ es -> m ∈ commits -> re_match p m = false) ->
  resolve c lookup commits original_pr_labels
  = unique_labels original_pr_labels (labels_key_of (labels c)) /\
  resolve c lookup commits original_pr_labels
  = original_pr_labels ∖ list_to_set (map name (labels c)) /\
  (forall l, l ∈ labels c -> name l ∉ resolve c lookup commits original_pr_labels) /\
  (forall n, n ∈ original_pr_labels -> n ∉ map name (labels c) ->
             n ∈ resolve c lookup commits original_pr_labels).
Proof.
  intros _ Hb Hno.
  assert (Hr : resolve c lookup commits original_pr_labels
               = original_pr_labels ∖ list_to_set (map name (labels c))).
  { unfold resolve, matched_names, surviving. rewrite collect_nil.
    - unfold unique_labels, labels_key_of.
      destruct (only_highest_priority c); simpl; apply union_empty_l_L.
    - intros m l Hml. destruct (build_lookup_spec _ _ _ _ Hb m l Hml) as [_ [g Hg]].
      destruct (any_match m commits) eqn:E; [|done].
      apply any_match_spec in E as (x & Hx & Hmatch).
      by rewrite (Hno g m x Hg Hx) in Hmatch. }
  split; [exact Hr|]. split; [exact Hr|]. rewrite Hr. split.
  - intros l Hl [_ Hn]%elem_of_difference. apply Hn.
    apply elem_of_list_to_set, list_elem_of_fmap. by exists l.
  - intros n Hn Hk. apply elem_of_difference. split; [done|].
    by intros ?%elem_of_list_to_set.
Qed.

Lemma verify_fails (changelog_groups : list string) (labels_key : gset string)
    (gs : list GroupMapping) (x : GroupMapping) :
  x ∈ gs ->
  group x ∉ changelog_groups \/ label x ∉ labels_key ->
  exists err, verify changelog_groups labels_key gs = Some err /\
              names_missing changelog_groups labels_key gs err.
Proof.
  intros Hin Hbad. induction gs as [|y gs IH]; [by apply elem_of_nil in Hin|].
  simpl. destruct (bool_decide (group y ∈ changelog_groups)) eqn:Eg; simpl.
  - destruct (bool_decide (label y ∈ labels_key)) eqn:El; simpl.
    + apply bool_decide_eq_true in Eg, El.
      apply elem_of_cons in Hin as [->|Hin]; [tauto|].
      destruct (IH Hin) as (err & Hv & Hn). exists err. split; [done|].
      destruct err as [g k|l k|]; simpl in *; [| |done].
      * destruct Hn as (? & ? & z & ? & ?). repeat split; try done.
        exists z. split; [by right | done].
      * destruct Hn as (? & ? & z & ? & ?). repeat split; try done.
        exists z. split; [by right | done].
    + apply bool_decide_eq_false in El. eexists. split; [done|]. simpl.
      repeat split; [done|]. exists y. split; [left | done].
  - apply bool_decide_eq_false in Eg. eexists. split; [done|]. simpl.
    repeat split; [done|]. exists y. split; [left | done].
Qed.

(** C3: when a group of the configuration refers to a group that no commit
    type has, or to a label that is not configured, the run ends with a
    [LabelsError] that names a missing reference, and it has made no API
    call; [main] reports the error and ends with status 1. *)
Theorem bad_reference_fails_before_any_call (a : Argv) (e : Env) (x : GroupMapping) :
  x ∈ groups (cclc e) ->
  group x ∉ map ct_group (commit_types e)
  \/ label x ∉ labels_key_of (labels (cclc e)) ->
  exists err,
    names_missing (map ct_group (commit_types e)) (labels_key_of (labels (cclc e)))
                  (groups (cclc e)) err /\
    load (commit_types e) (cclc e) = inl (Labels_error err) /\
    (forall pull_request, run pull_request e = ([], Raise (Labels_error err))) /\
    (parse_arguments a = Some a ->
     main a e = {| calls := []; console_error := Some err; exit_code := 1 |}).
Proof.
  intros Hin Hbad.
  destruct (verify_fails _ _ _ x Hin Hbad) as (err & Hv & Hn).
  assert (Hl : load (commit_types e) (cclc e) = inl (Labels_error err))
    by (unfold load; by rewrite Hv).
  exists err. repeat split; [done|done| |].
  - intros pr. unfold run. by rewrite Hl.
  - intros Ha. unfold main, run. by rewrite Ha, Hl.
Qed.

End Resolution.

(** ** The order of the matched labels *)

Lemma insert_desc_descending (x : LabelDef) (l : list LabelDef) :
  descending l -> descending (insert_desc x l).
Proof.
  unfold descending. induction l as [|y l IH]; simpl; intros Hs.
  - by repeat constructor.
  - apply StronglySorted_inv in Hs as [Hs Hy].
    destruct (key x <? key y)%Z eqn:E.
    + apply Z.ltb_lt in E. constructor; [by apply IH|].
      rewrite insert_desc_perm. constructor; [lia | done].
    + apply Z.ltb_ge in E. constructor; [by constructor|].
      constructor; [done|]. eapply Forall_impl; [exact Hy|]. simpl. lia.
Qed.

Lemma sorted_desc_descending (l : list LabelDef) : descending (sorted_desc l).
Proof.
  induction l as [|x l IH]; simpl; [constructor|].
  by apply insert_desc_descending.
Qed.

(** Insertion passes only over elements of a larger key, so the elements of
    one key keep their order. *)
Lemma insert_desc_filter (p : Z) (x : LabelDef) (l : list LabelDef) :
  filter (fun y => key y = p) (insert_desc x l)
  = filter (fun y => key y = p) (x :: l).
Proof.
  induction l as [|y l IH]; simpl; [done|].
  destruct (key x <? key y)%Z eqn:E; [|done].
  apply Z.ltb_lt in E.
  rewrite (filter_cons _ y), IH, !(filter_cons _ x), (filter_cons _ y).
  repeat case_decide; try done; lia.
Qed.

Lemma sorted_desc_stable (p : Z) (l : list LabelDef) :
  filter (fun y => key y = p) (sorted_desc l) = filter (fun y => key y = p) l.
Proof.
  induction l as [|x l IH]; simpl; [done|].
  by rewrite insert_desc_filter, !(filter_cons _ x), IH.
Qed.

Lemma head_insert_desc (x : LabelDef) (l : list LabelDef) :
  head (insert_desc x l)
  = Some (match head l with
          | Some y => if (key x <? key y)%Z then y else x
          | None => x
          end).
Proof. destruct l as [|y l]; simpl; [done|]. by destruct (key x <? key y)%Z. Qed.

(** The first element of the sorted list is the earliest element of the
    largest key. *)
Lemma head_sorted_desc (pre post : list LabelDef) (l : LabelDef) :
  (forall x, x ∈ pre -> (key x < key l)%Z) ->
  (forall x, x ∈ post -> (key x <= key l)%Z) ->
  head (sorted_desc (pre ++ l :: post)) = Some l.
Proof.
  intros Hpre Hpost. induction pre as [|a pre IH]; simpl.
  - rewrite head_insert_desc.
    destruct (head (sorted_desc post)) as [y|] eqn:E; [|done].
    assert (y ∈ post) as Hy.
    { rewrite <- (sorted_desc_perm post). by apply head_Some_elem_of. }
    apply Hpost in Hy. by rewrite (proj2 (Z.ltb_ge _ _) Hy).
  - rewrite head_insert_desc, IH.
    + assert (key a < key l)%Z as Ha by (apply Hpre; left).
      by rewrite (proj2 (Z.ltb_lt _ _) Ha).
    + intros x Hx. apply Hpre. by right.
Qed.

Lemma take_1_head {A : Type} (l : list A) (x : A) : head l = Some x -> take 1 l = [x].
Proof. destruct l as [|y l]; simpl; [discriminate|]. intros [= ->]. by destruct l. Qed.

Section Order.
Context {R : Regex}.

Lemma verify_passes (changelog_groups : list string) (labels_key : gset string)
    (gs : list GroupMapping) :
  verify changelog_groups labels_key gs = None ->
  Forall (fun x => group x ∈ changelog_groups /\ label x ∈ labels_key) gs.
Proof.
  induction gs as [|x gs IH]; simpl; [constructor|].
  destruct (bool_decide (group x ∈ changelog_groups)) eqn:Eg; simpl; [|discriminate].
  destruct (bool_decide (label x ∈ labels_key)) eqn:El; simpl; [|discriminate].
  apply bool_decide_eq_true in Eg, El. intros H. constructor; auto.
Qed.

Lemma first_label_some (ls : list LabelDef) (n : string) :
  n ∈ labels_key_of ls -> exists l, first_label ls n = Some l.
Proof.
  intros (l & Hl & <-)%labels_key_spec.
  induction ls as [|a ls IH]; [by apply elem_of_nil in Hl|]. simpl.
  destruct (String.eqb (name l) (name a)) eqn:E; [by exists a|].
  apply elem_of_cons in Hl as [->|Hl]; [|auto].
  by rewrite String.eqb_refl in E.
Qed.

(** After validation [lookup] has one entry for each group, in the order in
    which the groups are declared. *)
Lemma build_lookup_order (es : list (string * pattern)) (ls : list LabelDef)
    (gs : list GroupMapping) (lookup : list (pattern * LabelDef)) :
  Forall (fun x => label x ∈ labels_key_of ls) gs ->
  build_lookup es ls gs = inr lookup ->
  Forall2 (fun g ml => next_matcher es (group g) = Some ml.1 /\
                       first_label ls (label g) = Some ml.2) gs lookup.
Proof.
  revert lookup. induction gs as [|g gs IH]; simpl; intros lookup Hgs.
  - intros [= <-]. constructor.
  - apply Forall_cons in Hgs as [Hg Hgs].
    destruct (first_label_some ls (label g) Hg) as [l El]. rewrite El.
    destruct (next_matcher es (group g)) as [m|] eqn:Em; [|discriminate].
    destruct (build_lookup es ls gs) as [|lookup']; [discriminate|].
    intros [= <-]. constructor; [by split|]. by apply IH.
Qed.

Lemma collect_filter (lookup : list (pattern * LabelDef)) (commits : list string) :
  collect lookup commits
  = map snd (filter (fun ml => any_match ml.1 commits = true) lookup).
Proof.
  induction lookup as [|[m l] lookup IH]; simpl; [done|].
  rewrite filter_cons. simpl.
  destruct (any_match m commits); case_decide; try done; simpl; by rewrite IH.
Qed.

(** C7: the lookup has one entry per group in declaration order, and the
    collected labels are those of the entries that match, in that order; they
    are sorted by priority (0 when the table has none), descending, and the
    labels of one priority keep the order in which they were collected.  So
    with [only_highest_priority] the label that is kept is the earliest
    collected one among those of the largest priority. *)
Theorem stable_priority_order (cts : list CommitType) (c : Config)
    (lookup : list (pattern * LabelDef)) (commits : list string) :
  load cts c = inr lookup ->
  let collected := collect lookup commits in
  (exists es,
     expressions cts = Some es /\
     Forall2 (fun g ml => next_matcher es (group g) = Some ml.1 /\
                          first_label (labels c) (label g) = Some ml.2)
             (groups c) lookup) /\
  collected = map snd (filter (fun ml => any_match ml.1 commits = true) lookup) /\
  surviving false lookup commits = sorted_desc collected /\
  surviving true lookup commits = take 1 (sorted_desc collected) /\
  StronglySorted (fun a b => (default 0 (priority b) <= default 0 (priority a))%Z)
    (sorted_desc collected) /\
  sorted_desc collected ≡ₚ collected /\
  (forall p, filter (fun l => default 0 (priority l) = p) (sorted_desc collected)
             = filter (fun l => default 0 (priority l) = p) collected) /\
  (forall pre l post,
     collected = pre ++ l :: post ->
     (forall x, x ∈ pre -> (default 0 (priority x) < default 0 (priority l))%Z) ->
     (forall x, x ∈ post -> (default 0 (priority x) <= default 0 (priority l))%Z) ->
     surviving true lookup commits = [l]).
Proof.
  intros (es & Hv & He & Hb)%load_spec. simpl.
  split; [|split; [|split; [|split; [|split; [|split; [|split]]]]]].
  - exists es. split; [done|]. apply build_lookup_order; [|done].
    apply verify_passes in Hv. eapply Forall_impl; [exact Hv|]. by intros ? [_ ?].
  - apply collect_filter.
  - done.
  - done.
  - exact (sorted_desc_descending (collect lookup commits)).
  - apply sorted_desc_perm.
  - intros p. exact (sorted_desc_stable p (collect lookup commits)).
  - intros pre l post Hc Hpre Hpost. unfold surviving. rewrite Hc.
    apply take_1_head. by apply head_sorted_desc.
Qed.

End Order.

(** ** The matcher of a keyword *)

Lemma special_false (c : ascii) :
  Re.special c = false ->
  Ascii.eqb c "\" = false /\ Ascii.eqb c "[" = false /\
  Ascii.eqb c "^" = false /\ Ascii.eqb c "?" = false.
Proof.
  unfold Re.special. simpl. intros H.
  repeat (apply orb_false_elim in H as [? H]). done.
Qed.

Lemma parse_plain (t rest : string) (acc : list Re.atom) :
  Re.plain t = true ->
  Re.parse Re.Top acc (t ++ rest) = Re.parse Re.Top (rev (Re.literal t) ++ acc) rest.
Proof.
  revert acc. induction t as [|c t IH]; simpl; intros acc; [done|].
  intros [Hc Ht]%andb_prop. apply negb_true_iff in Hc.
  destruct (special_false c Hc) as (-> & -> & -> & ->). rewrite Hc.
  rewrite (IH _ Ht). by rewrite <- app_assoc.
Qed.

(** The pattern that [expressions] compiles for a keyword. *)
Lemma compile_keyword (t : string) :
  Re.plain t = true ->
  Re.compile (t ++ "\s?[:|-]") = Some (Re.literal t ++ Re.tail).
Proof.
  intros Ht. unfold Re.compile. rewrite (parse_plain _ _ _ Ht). simpl.
  rewrite app_nil_r, rev_involutive. by rewrite <- !app_assoc.
Qed.

Lemma match_tail_start (b : bool) (s : string) :
  Re.match_here Re.tail b s = Re.match_here Re.tail false s.
Proof. by destruct s. Qed.

Lemma same_letters_refl (t : string) : Re.same_letters t t = true.
Proof.
  induction t as [|c t IH]; simpl; [done|]. by rewrite Ascii.eqb_refl.
Qed.

(** The keyword consumes a prefix that is the keyword up to case. *)
Lemma match_literal (t u s : string) (b : bool) :
  Re.same_letters t u = true ->
  Re.match_here (Re.literal t ++ Re.tail) b (u ++ s)
  = Re.match_here Re.tail false s.
Proof.
  revert u b. induction t as [|a t IH]; intros [|c u] b; simpl; try discriminate.
  - intros _. apply (match_tail_start b s).
  - intros [-> Hu]%andb_prop. simpl. by apply IH.
Qed.

Lemma match_literal_inv (t m : string) (b : bool) :
  Re.match_here (Re.literal t ++ Re.tail) b m = true ->
  exists u s : string, m = (u ++ s)%string /\ Re.same_letters t u = true /\
              Re.match_here Re.tail false s = true.
Proof.
  revert m b. induction t as [|a t IH]; intros m b.
  - simpl Re.literal. rewrite app_nil_l, match_tail_start. intros H.
    by exists EmptyString, m.
  - destruct m as [|c m]; [discriminate|]. simpl.
    intros [Hc H]%andb_prop. destruct (IH _ _ H) as (u & s & -> & Hu & Hs).
    exists (String c u), s. simpl. by rewrite Hc, Hu.
Qed.

Lemma accepts_separator (c : ascii) :
  Re.accepts (Re.Class [(":", ":"); ("|", "|"); ("-", "-")]%char) c = true <->
  c = ":"%char \/ c = "|"%char \/ c = "-"%char.
Proof.
  split.
  - destruct c as [b0 b1 b2 b3 b4 b5 b6 b7].
    destruct b0, b1, b2, b3, b4, b5, b6, b7; vm_compute; intros H;
      first [discriminate H | auto].
  - intros [-> | [-> | ->]]; reflexivity.
Qed.

(** What the tail accepts: at most one white space character, then one of
    [:], [|] and [-]. *)
Lemma match_tail_spec (s : string) :
  Re.match_here Re.tail false s = true <->
  exists (w : string) c rest,
    s = (w ++ String c rest)%string /\
    (w = EmptyString \/ exists ws, w = String ws EmptyString /\ Re.isspace ws = true) /\
    (c = ":"%char \/ c = "|"%char \/ c = "-"%char).
Proof.
  unfold Re.tail. split.
  - destruct s as [|c1 s]; [discriminate|]. simpl.
    intros [H|H]%orb_prop.
    + apply andb_prop in H as [Hw H].
      destruct s as [|c2 s]; [discriminate|].
      rewrite andb_true_r in H. apply accepts_separator in H.
      exists (String c1 EmptyString), c2, s. repeat split; [|done]. right. by exists c1.
    + rewrite andb_true_r in H. apply accepts_separator in H.
      exists EmptyString, c1, s. repeat split; [by left | done].
  - intros (w & c & rest & -> & [-> | (ws & -> & Hw)] & Hc);
      apply accepts_separator in Hc; simpl in *.
    + rewrite Hc. simpl. by rewrite orb_true_r.
    + by rewrite Hw, Hc.
Qed.

(** X15: the matcher that [expressions] compiles for the keyword [t] matches [m]
    exactly when [m] starts with [t] up to case, then at most one white
    space character, then [:], [|] or [-]. *)
Lemma keyword_matcher_spec (t m : string) :
  Re.plain t = true ->
  exists p,
    Re.compile (t ++ "\s?[:|-]") = Some p /\
    (Re.matches p m = true <->
     exists (u w : string) c rest,
       m = (u ++ w ++ String c rest)%string /\
       Re.same_letters t u = true /\
       (w = EmptyString \/ exists ws, w = String ws EmptyString /\ Re.isspace ws = true) /\
       (c = ":"%char \/ c = "|"%char \/ c = "-"%char)).
Proof.
  intros Ht. exists (Re.literal t ++ Re.tail). split; [by apply compile_keyword|].
  unfold Re.matches. split.
  - intros (u & s & -> & Hu & Hs)%match_literal_inv.
    apply match_tail_spec in Hs as (w & c & rest & -> & Hw & Hc).
    by exists u, w, c, rest.
  - intros (u & w & c & rest & -> & Hu & Hw & Hc).
    rewrite (match_literal _ _ _ _ Hu). apply match_tail_spec.
    by exists w, c, rest.
Qed.

(** The messages of the documentation of the matcher. *)
Example feat_matches_colon :
  Re.matches (Re.literal "feat" ++ Re.tail) "feat: add x" = true.
Proof. reflexivity. Qed.

Example feat_matches_dash :
  Re.matches (Re.literal "feat" ++ Re.tail) "feat-123: add x" = true.
Proof. reflexivity. Qed.

Example feat_is_anchored :
  Re.matches (Re.literal "feat" ++ Re.tail) "preface feat: x" = false.
Proof. reflexivity. Qed.

Example feat_is_not_feature :
  Re.matches (Re.literal "feat" ++ Re.tail) "feature: something" = false.
Proof. reflexivity. Qed.

(** C2: the matcher of [feat] accepts the message [feat| x], in which the
    keyword is followed by [|] and by neither [:] nor [-]; a pull request with
    this single commit is given the label of [feat]. *)
Theorem bar_accepted_as_separator :
  exists p,
    Re.compile ("feat" ++ "\s?[:|-]") = Some p /\
    Re.matches p "feat| x" = true /\
    run (R := Re.engine) (Some "7") (Sample.env None false [] ["feat| x"])
    = ([labels_get_all; pull_requests_commits; labels_delete;
        labels_set_all {[ "enhancement" ]}], Return_).
Proof.
  eexists. split; [reflexivity|]. split; [reflexivity|]. vm_compute. reflexivity.
Qed.

(** C10: for every keyword, a message that starts with the keyword, one
    space and [:] matches, and a message that starts with the keyword, two
    spaces and [:] does not. *)
Theorem one_space_before_separator (t rest : string) :
  Re.plain t = true ->
  exists p,
    Re.compile (t ++ "\s?[:|-]") = Some p /\
    Re.matches p (t ++ " :" ++ rest) = true /\
    Re.matches p (t ++ "  :" ++ rest) = false.
Proof.
  intros Ht. exists (Re.literal t ++ Re.tail). split; [by apply compile_keyword|].
  unfold Re.matches.
  by rewrite !(match_literal t t _ _ (same_letters_refl t)).
Qed.

Lemma one_space_before_separator_witness :
  Re.plain "feat" = true /\
  exists p,
    Re.compile ("feat" ++ "\s?[:|-]") = Some p /\
    Re.matches p ("feat" ++ " :" ++ " add x") = true /\
    Re.matches p ("feat" ++ "  :" ++ " add x") = false.
Proof.
  split; [reflexivity|].
  apply (one_space_before_separator "feat" " add x"). reflexivity.
Defined.

(** ** Priorities 10, 5 and 1 *)

Lemma first_label_nodup (ls : list LabelDef) (l : LabelDef) :
  NoDup (map name ls) -> l ∈ ls -> first_label ls (name l) = Some l.
Proof.
  induction ls as [|a ls IH]; simpl; [by intros _ ?%elem_of_nil|].
  intros [Ha Hnd]%NoDup_cons [->|Hl]%elem_of_cons.
  - by rewrite String.eqb_refl.
  - destruct (String.eqb (name l) (name a)) eqn:E; [|auto].
    apply String.eqb_eq in E. destruct Ha. rewrite <- E.
    apply list_elem_of_fmap. by exists l.
Qed.

(** The six orders of three elements. *)
Lemma three_orders {A : Type} (l : list A) (a b c : A) :
  l ≡ₚ [a; b; c] ->
  l = [a; b; c] \/ l = [a; c; b] \/ l = [b; a; c] \/
  l = [b; c; a] \/ l = [c; a; b] \/ l = [c; b; a].
Proof.
  intros Hp. pose proof (Permutation_length Hp) as Hlen.
  destruct l as [|x [|y [|z [|? ?]]]]; try discriminate Hlen. clear Hlen.
  assert (x ∈ [a; b; c]) as Hx by (rewrite <- Hp; left).
  apply elem_of_cons in Hx as [->|Hx]; [|apply elem_of_cons in Hx as [->|Hx]].
  - apply Permutation_cons_inv, Permutation_sym, Permutation_length_2_inv in Hp
      as [[= -> ->]|[= -> ->]]; tauto.
  - rewrite <- (Permutation_swap a b [c]) in Hp.
    apply Permutation_cons_inv, Permutation_sym, Permutation_length_2_inv in Hp
      as [[= -> ->]|[= -> ->]]; tauto.
  - apply list_elem_of_singleton in Hx as ->.
    assert ([a; b; c] ≡ₚ [c; a; b]) as Hr.
    { change ([a; b; c]) with ([a; b] ++ [c]). by rewrite Permutation_app_comm. }
    rewrite Hr in Hp.
    apply Permutation_cons_inv, Permutation_sym, Permutation_length_2_inv in Hp
      as [[= -> ->]|[= -> ->]]; tauto.
Qed.

(** C4: three labels of priorities 10, 5 and 1, mapped from [feat], [fix]
    and [docs], declared in any order, and the commits [feat: a], [fix: b],
    [docs: c].  Without [only_highest_priority] the resolved set less
    [unique_labels] is the three names; with it, it is the name of the label
    of priority 10, wherever that label and its group are declared. *)
Theorem priorities_10_5_1 (n10 n5 n1 : string) (ls : list LabelDef)
    (gs : list GroupMapping) (d : option string) (original_pr_labels : gset string) :
  n10 ≠ n5 -> n10 ≠ n1 -> n5 ≠ n1 ->
  ls ≡ₚ [ {| name := n10; priority := Some 10 |};
          {| name := n5; priority := Some 5 |};
          {| name := n1; priority := Some 1 |} ] ->
  gs ≡ₚ [ {| group := "feat"; label := n10 |};
          {| group := "fix"; label := n5 |};
          {| group := "docs"; label := n1 |} ] ->
  forall only : bool,
  exists lookup,
    load (R := Re.engine) Sample.types
      {| labels := ls; groups := gs; disable_on := d; only_highest_priority := only |}
    = inr lookup /\
    resolve
      {| labels := ls; groups := gs; disable_on := d; only_highest_priority := only |}
      lookup Sample.commits original_pr_labels
    ∖ (original_pr_labels ∖ list_to_set (map name ls))
    = if only then {[ n10 ]} else {[ n10; n5; n1 ]}.
Proof.
  intros H12 H13 H23 Hls Hgs only.
  assert (Hnd : NoDup (map name ls)).
  { rewrite Hls. simpl. repeat constructor; set_solver. }
  assert (Hf10 : first_label ls n10 = Some {| name := n10; priority := Some 10 |}).
  { apply (first_label_nodup ls {| name := n10; priority := Some 10 |} Hnd).
    rewrite Hls. in_list. }
  assert (Hf5 : first_label ls n5 = Some {| name := n5; priority := Some 5 |}).
  { apply (first_label_nodup ls {| name := n5; priority := Some 5 |} Hnd).
    rewrite Hls. in_list. }
  assert (Hf1 : first_label ls n1 = Some {| name := n1; priority := Some 1 |}).
  { apply (first_label_nodup ls {| name := n1; priority := Some 1 |} Hnd).
    rewrite Hls. in_list. }
  assert (Hkey : labels_key_of ls = {[ n10; n5; n1 ]}).
  { apply set_eq. intros x. rewrite labels_key_spec. setoid_rewrite Hls. split.
    - intros (l & Hl & <-).
      repeat (apply elem_of_cons in Hl as [->|Hl]); [set_solver..|].
      by apply elem_of_nil in Hl.
    - intros Hx. apply elem_of_union in Hx as [[Hx|Hx]%elem_of_union|Hx];
        apply elem_of_singleton in Hx as ->.
      + exists {| name := n10; priority := Some 10 |}. split; [in_list | done].
      + exists {| name := n5; priority := Some 5 |}. split; [in_list | done].
      + exists {| name := n1; priority := Some 1 |}. split; [in_list | done]. }
  assert (Hkey' : list_to_set (map name ls) = ({[ n10; n5; n1 ]} : gset string))
    by exact Hkey.
  destruct (three_orders gs _ _ _ Hgs) as [-> | [-> | [-> | [-> | [-> | ->]]]]];
    (eexists; split;
     [ unfold load; simpl verify; rewrite Hkey;
       rewrite !bool_decide_eq_true_2 by set_solver;
       simpl; rewrite ?Hf10, ?Hf5, ?Hf1; simpl; rewrite ?Hf10, ?Hf5, ?Hf1; reflexivity
     | unfold resolve, matched_names, unique_labels; simpl;
       rewrite ?Hkey, ?Hkey'; destruct only; simpl; set_solver ]).
Qed.

Lemma priorities_10_5_1_witness :
  ("enhancement" ≠ "bug" /\ "enhancement" ≠ "documentation" /\ "bug" ≠ "documentation") /\
  exists lookup,
    load (R := Re.engine) Sample.types
      {| labels := [ {| name := "documentation"; priority := Some 1 |};
                     {| name := "enhancement"; priority := Some 10 |};
                     {| name := "bug"; priority := Some 5 |} ];
         groups := [ {| group := "docs"; label := "documentation" |};
                     {| group := "fix"; label := "bug" |};
                     {| group := "feat"; label := "enhancement" |} ];
         disable_on := None; only_highest_priority := true |}
    = inr lookup /\
    resolve
      {| labels := [ {| name := "documentation"; priority := Some 1 |};
                     {| name := "enhancement"; priority := Some 10 |};
                     {| name := "bug"; priority := Some 5 |} ];
         groups := [ {| group := "docs"; label := "documentation" |};
                     {| group := "fix"; label := "bug" |};
                     {| group := "feat"; label := "enhancement" |} ];
         disable_on := None; only_highest_priority := true |}
      lookup Sample.commits {[ "triage"; "bug" ]}
    ∖ ({[ "triage"; "bug" ]}
       ∖ list_to_set (map name [ {| name := "documentation"; priority := Some 1 |};
                                 {| name := "enhancement"; priority := Some 10 |};
                                 {| name := "bug"; priority := Some 5 |} ]))
    = {[ "enhancement" ]}.
Proof.
  split; [repeat split; discriminate|].
  apply (priorities_10_5_1 "enhancement" "bug" "documentation" _ _ None
           {[ "triage"; "bug" ]}); try discriminate.
  - exact (Permutation_app_comm [ {| name := "documentation"; priority := Some 1 |} ]
             [ {| name := "enhancement"; priority := Some 10 |};
               {| name := "bug"; priority := Some 5 |} ]).
  - exact (Permutation_rev [ {| group := "docs"; label := "documentation" |};
                             {| group := "fix"; label := "bug" |};
                             {| group := "feat"; label := "enhancement" |} ]).
Defined.

(** ** The sentinel and the pull request identifier *)

Lemma starts_with_spec (a b : string) :
  starts_with a b = true <-> exists s : string, b = (a ++ s)%string.
Proof.
  revert b. induction a as [|c a IH]; intros b; simpl.
  - split; [|done]. intros _. by exists b.
  - destruct b as [|c' b].
    + split; [discriminate|]. by intros [s [=]].
    + rewrite andb_true_iff, Ascii.eqb_eq, IH. split.
      * intros [-> [s ->]]. by exists s.
      * intros [s [= -> ->]]. split; [done|]. by exists s.
Qed.

(** [contains a b] holds exactly when [a] occurs inside [b]. *)
Lemma contains_spec (a b : string) :
  contains a b = true <-> exists p s : string, b = (p ++ a ++ s)%string.
Proof.
  induction b as [|c b IH]; simpl.
  - rewrite orb_false_r, starts_with_spec. split.
    + intros [s Hs]. by exists EmptyString, s.
    + intros (p & s & H). destruct p; [by exists s|discriminate].
  - rewrite orb_true_iff, starts_with_spec, IH. split.
    + intros [[s Hs]|(p & s & ->)]; [by exists EmptyString, s|]. by exists (String c p), s.
    + intros (p & s & H). destruct p as [|c' p]; [left; by exists s|].
      right. injection H as -> ->. by exists p, s.
Qed.

Section Session.
Context {R : Regex}.

Lemma disabled_true (d : string) (labels_of_pr : gset string) (x : string) :
  d ≠ EmptyString -> x ∈ labels_of_pr -> contains d x = true ->
  disabled (Some d) labels_of_pr = true.
Proof.
  intros Hd Hx Hc. unfold disabled. apply andb_true_intro. split.
  - by destruct d.
  - apply existsb_exists. exists x. split; [|done].
    apply list_elem_of_In. by apply elem_of_elements.
Qed.

(** C5: when the configuration loads, the pull request identifier is not
    empty, the sentinel [disable_on] is a string that is not empty and some
    current label contains it, the run only fetches the labels and returns:
    no label is deleted or set, nothing is reported and the status is 0. *)
Theorem sentinel_skips_run (a : Argv) (e : Env) (lookup : list (pattern * LabelDef))
    (d x : string) :
  parse_arguments a = Some a ->
  truthy (arg_pull_request a) = true ->
  load (commit_types e) (cclc e) = inr lookup ->
  disable_on (cclc e) = Some d ->
  d ≠ EmptyString ->
  x ∈ pr_labels e ->
  contains d x = true ->
  run (arg_pull_request a) e = ([labels_get_all], Return_) /\
  existsb mutates (calls (main a e)) = false /\
  main a e = {| calls := [labels_get_all]; console_error := None; exit_code := 0 |}.
Proof.
  intros Ha Hpr Hl Hd Hne Hx Hc.
  assert (Hrun : run (arg_pull_request a) e = ([labels_get_all], Return_)).
  { unfold run, session. rewrite Hl, Hpr, Hd. simpl.
    rewrite (disabled_true d _ x); [done|done| |done]. by apply elem_of_list_to_set. }
  unfold main. rewrite Ha, Hrun. done.
Qed.

(** C8: when [--pull-request] is left out, the argument parser ends the
    process with status 2 before the run starts.  When it is given with an
    empty value, no API call is made and the status is 1; if the
    configuration loads, the run raises the [LabelsError] "no PR identifier
    found" and [main] reports it. *)
Theorem empty_pr_identifier_is_fatal (a : Argv) (e : Env) :
  (arg_pull_request a = None ->
   main a e = {| calls := []; console_error := None; exit_code := 2 |}) /\
  (parse_arguments a = Some a ->
   truthy (arg_pull_request a) = false ->
   exit_code (main a e) = 1 /\
   calls (main a e) = [] /\
   forall lookup,
     load (commit_types e) (cclc e) = inr lookup ->
     run (arg_pull_request a) e = ([], Raise (Labels_error no_pr_identifier)) /\
     console_error (main a e) = Some no_pr_identifier).
Proof.
  split.
  - intros Hn. unfold main, parse_arguments. rewrite Hn.
    by destruct (arg_label_config a), (arg_repository a), (arg_working_directory a).
  - intros Ha Hpr. unfold main, run. rewrite Ha.
    destruct (load (commit_types e) (cclc e)) as [x|lookup] eqn:Hl.
    + split; [|split]; [by destruct x..|]. intros ? [=].
    + unfold session. rewrite Hpr. simpl. repeat split; done.
Qed.

End Session.

(** ** The properties on sample inputs *)

Lemma unmanaged_labels_kept_witness :
  labels_set_all {[ "enhancement"; "triage" ]}
  ∈ (run (R := Re.engine) (Some "7")
       (Sample.env None true ["bug"; "triage"] Sample.commits)).1 /\
  unique_labels (list_to_set ["bug"; "triage"])
    (labels_key_of (labels (Sample.config "enhancement" "bug" "documentation" None true)))
  ⊆ ({[ "enhancement"; "triage" ]} : gset string).
Proof.
  assert (H : labels_set_all {[ "enhancement"; "triage" ]}
              ∈ (run (R := Re.engine) (Some "7")
                   (Sample.env None true ["bug"; "triage"] Sample.commits)).1).
  { vm_compute. in_list. }
  split; [exact H|].
  exact (proj2 (unmanaged_labels_kept (R := Re.engine) (Some "7")
                  (Sample.env None true ["bug"; "triage"] Sample.commits) _ H)).
Defined.

Lemma resolved_parts_disjoint_witness :
  exists lookup,
    load (R := Re.engine) Sample.types
      (Sample.config "enhancement" "bug" "documentation" None false) = inr lookup /\
    matched_names false lookup ["fix: b"]
    ## unique_labels {[ "bug"; "triage" ]}
         (labels_key_of (Sample.three_labels "enhancement" "bug" "documentation")).
Proof.
  destruct (load (R := Re.engine) Sample.types
              (Sample.config "enhancement" "bug" "documentation" None false))
    as [x|lookup] eqn:Hl; [discriminate Hl|].
  exists lookup. split; [reflexivity|].
  destruct (resolved_parts_disjoint (R := Re.engine) Sample.types
              (Sample.config "enhancement" "bug" "documentation" None false)
              lookup ["fix: b"] {[ "bug"; "triage" ]} Hl)
    as (_ & _ & _ & _ & Hdisj).
  exact Hdisj.
Defined.

Lemma no_match_leaves_unique_witness :
  exists es lookup,
    expressions (R := Re.engine) Sample.types = Some es /\
    build_lookup es (Sample.three_labels "enhancement" "bug" "documentation")
      (Sample.three_groups "enhancement" "bug" "documentation") = inr lookup /\
    (forall g p m, (g, p) ∈ es -> m ∈ ["update the readme"; "feature: x"] ->
                   re_match p m = false) /\
    resolve (Sample.config "enhancement" "bug" "documentation" None false) lookup
      ["update the readme"; "feature: x"] {[ "bug"; "triage"; "documentation" ]}
    = {[ "triage" ]}.
Proof.
  assert (He : expressions (R := Re.engine) Sample.types
               = Some [ ("feat", Re.literal "feat" ++ Re.tail);
                        ("fix", Re.literal "fix" ++ Re.tail);
                        ("docs", Re.literal "docs" ++ Re.tail) ]) by reflexivity.
  assert (Hno : forall g p m,
             (g, p) ∈ [ ("feat", Re.literal "feat" ++ Re.tail);
                        ("fix", Re.literal "fix" ++ Re.tail);
                        ("docs", Re.literal "docs" ++ Re.tail) ] ->
             m ∈ ["update the readme"; "feature: x"] ->
             re_match (Regex := Re.engine) p m = false).
  { intros g p m Hp Hm.
    repeat (apply elem_of_cons in Hp as [[= -> ->]|Hp]);
      [..|by apply elem_of_nil in Hp];
      repeat (apply elem_of_cons in Hm as [->|Hm]);
      first [reflexivity | by apply elem_of_nil in Hm]. }
  eexists _, _. split; [exact He|]. split; [vm_compute; reflexivity|].
  split; [exact Hno|].
  destruct (no_match_leaves_unique (R := Re.engine) Sample.types
              (Sample.config "enhancement" "bug" "documentation" None false) _ _
              ["update the readme"; "feature: x"]
              {[ "bug"; "triage"; "documentation" ]} He eq_refl Hno)
    as (_ & Hr & _).
  etransitivity; [exact Hr|]. vm_compute. reflexivity.
Defined.

Lemma bad_reference_fails_before_any_call_witness :
  {| group := "fix"; label := "regression" |} ∈ groups (cclc (Sample.bad_env None)) /\
  ("regression" ∉ labels_key_of (labels (cclc (Sample.bad_env None)))) /\
  exists err,
    load (R := Re.engine) (commit_types (Sample.bad_env None)) (cclc (Sample.bad_env None))
    = inl (Labels_error err) /\
    main (R := Re.engine) (Sample.argv (Some "7")) (Sample.bad_env None)
    = {| calls := []; console_error := Some err; exit_code := 1 |}.
Proof.
  assert (Hin : {| group := "fix"; label := "regression" |}
                ∈ groups (cclc (Sample.bad_env None))).
  { simpl. in_list. }
  assert (Hbad : "regression" ∉ labels_key_of (labels (cclc (Sample.bad_env None)))).
  { apply (bool_decide_unpack _). vm_compute. exact I. }
  split; [exact Hin|]. split; [exact Hbad|].
  destruct (bad_reference_fails_before_any_call (R := Re.engine)
              (Sample.argv (Some "7")) (Sample.bad_env None) _ Hin (or_intror Hbad))
    as (err & _ & Hl & _ & Hm).
  exists err. split; [exact Hl|]. apply Hm. reflexivity.
Defined.

Lemma stable_priority_order_witness :
  exists lookup,
    load (R := Re.engine) Sample.types (Sample.tied_config true) = inr lookup /\
    collect lookup Sample.commits
    = [ {| name := "documentation"; priority := None |} ]
      ++ {| name := "bug"; priority := Some 5 |}
      :: [ {| name := "enhancement"; priority := Some 5 |} ] /\
    filter (fun l => default 0 (priority l) = 5)
      (sorted_desc (collect lookup Sample.commits))
    = [ {| name := "bug"; priority := Some 5 |};
        {| name := "enhancement"; priority := Some 5 |} ] /\
    surviving true lookup Sample.commits = [ {| name := "bug"; priority := Some 5 |} ].
Proof.
  destruct (load (R := Re.engine) Sample.types (Sample.tied_config true))
    as [x|lookup] eqn:Hl; [discriminate Hl|].
  exists lookup. split; [reflexivity|].
  assert (Hc : collect lookup Sample.commits
               = [ {| name := "documentation"; priority := None |} ]
                 ++ {| name := "bug"; priority := Some 5 |}
                 :: [ {| name := "enhancement"; priority := Some 5 |} ]).
  { injection Hl as <-. reflexivity. }
  split; [exact Hc|].
  destruct (stable_priority_order (R := Re.engine) Sample.types
              (Sample.tied_config true) lookup Sample.commits Hl)
    as (_ & _ & _ & _ & _ & _ & Hstable & Hhead).
  split.
  - rewrite (Hstable 5), Hc. reflexivity.
  - apply (Hhead _ _ _ Hc).
    + intros x Hx. apply list_elem_of_singleton in Hx as ->. simpl. lia.
    + intros x Hx. apply list_elem_of_singleton in Hx as ->. simpl. lia.
Defined.

Lemma sentinel_skips_run_witness :
  parse_arguments (Sample.argv (Some "7")) = Some (Sample.argv (Some "7")) /\
  "no-label" ≠ EmptyString /\
  "no-labeler please" ∈ ["bug"; "no-labeler please"] /\
  contains "no-label" "no-labeler please" = true /\
  main (R := Re.engine) (Sample.argv (Some "7"))
    (Sample.env (Some "no-label") false ["bug"; "no-labeler please"] Sample.commits)
  = {| calls := [labels_get_all]; console_error := None; exit_code := 0 |}.
Proof.
  assert (Hx : "no-labeler please" ∈ ["bug"; "no-labeler please"]).
  { in_list. }
  split; [reflexivity|]. split; [discriminate|]. split; [exact Hx|].
  split; [reflexivity|].
  eapply (sentinel_skips_run (R := Re.engine) (Sample.argv (Some "7"))
            (Sample.env (Some "no-label") false ["bug"; "no-labeler please"]
               Sample.commits) _ "no-label" "no-labeler please");
    [reflexivity | reflexivity | vm_compute; reflexivity | reflexivity
    | discriminate | exact Hx | reflexivity].
Defined.

(** With the empty string as sentinel every label contains the sentinel, and
    the run deletes and sets the labels all the same; with a sentinel that a
    label contains and a group that refers to an unknown label, the run ends
    with an error and status 1. *)
Lemma empty_sentinel_does_not_skip :
  (disable_on (cclc (Sample.env (Some EmptyString) false ["bug"] Sample.commits))
   = Some EmptyString /\
   "bug" ∈ pr_labels (Sample.env (Some EmptyString) false ["bug"] Sample.commits) /\
   contains EmptyString "bug" = true /\
   main (R := Re.engine) (Sample.argv (Some "7"))
     (Sample.env (Some EmptyString) false ["bug"] Sample.commits)
   = {| calls := [labels_get_all; pull_requests_commits; labels_delete;
                  labels_set_all {[ "enhancement"; "bug"; "documentation" ]}];
        console_error := None; exit_code := 0 |} /\
   existsb mutates
     (calls (main (R := Re.engine) (Sample.argv (Some "7"))
               (Sample.env (Some EmptyString) false ["bug"] Sample.commits))) = true) /\
  (disable_on (cclc (Sample.bad_env (Some "bug"))) = Some "bug" /\
   "bug" ∈ pr_labels (Sample.bad_env (Some "bug")) /\
   contains "bug" "bug" = true /\
   exit_code (main (R := Re.engine) (Sample.argv (Some "7")) (Sample.bad_env (Some "bug")))
   = 1).
Proof.
  split.
  - split; [reflexivity|]. split; [in_list|]. split; [reflexivity|].
    split; vm_compute; reflexivity.
  - split; [reflexivity|]. split; [in_list|]. split; reflexivity.
Qed.

Lemma empty_pr_identifier_is_fatal_witness :
  parse_arguments (Sample.argv (Some EmptyString)) = Some (Sample.argv (Some EmptyString)) /\
  truthy (arg_pull_request (Sample.argv (Some EmptyString))) = false /\
  main (R := Re.engine) (Sample.argv (Some EmptyString))
    (Sample.env None false ["bug"] Sample.commits)
  = {| calls := []; console_error := Some no_pr_identifier; exit_code := 1 |}.
Proof.
  split; [reflexivity|]. split; [reflexivity|].
  destruct (proj2 (empty_pr_identifier_is_fatal (R := Re.engine)
                     (Sample.argv (Some EmptyString))
                     (Sample.env None false ["bug"] Sample.commits))
              eq_refl eq_refl) as (_ & _ & _).
  reflexivity.
Defined.

(** Without [--pull-request] the process ends with status 2, not 1, and
    nothing goes through [Console.error]; with an empty [--pull-request] and a
    group that refers to an unknown label, the error that is reported is the
    one about the label. *)
Lemma omitted_pr_flag_exits_2 :
  (arg_pull_request (Sample.argv None) = None /\
   exit_code (main (R := Re.engine) (Sample.argv None)
                (Sample.env None false ["bug"] Sample.commits)) = 2 /\
   exit_code (main (R := Re.engine) (Sample.argv None)
                (Sample.env None false ["bug"] Sample.commits)) ≠ 1 /\
   console_error (main (R := Re.engine) (Sample.argv None)
                    (Sample.env None false ["bug"] Sample.commits)) = None) /\
  (exists known,
     console_error (main (R := Re.engine) (Sample.argv (Some EmptyString))
                      (Sample.bad_env None))
     = Some (label_not_found "regression" known)).
Proof.
  split; [repeat split; done|]. eexists. vm_compute. reflexivity.
Qed.

(** ** How loading ends *)

Section Loading.
Context {R : Regex}.


Lemma verify_none (changelog_groups : list string) (labels_key : gset string)
    (gs : list GroupMapping) :
  verify changelog_groups labels_key gs = None <->
  Forall (known_reference changelog_groups labels_key) gs.
Proof.
  split; [apply verify_passes|].
  induction 1 as [|x gs [Hg Hl] _ IH]; simpl; [done|].
  by rewrite !bool_decide_eq_true_2.
Qed.

Lemma expressions_some (cts : list CommitType) (es : list (string * pattern)) :
  expressions cts = Some es ->
  Forall2 (fun ct gp => gp.1 = ct_group ct /\
                        re_compile (ct_message ct ++ "\s?[:|-]") = Some gp.2) cts es.
Proof.
  revert es. induction cts as [|ct cts IH]; simpl; intros es.
  - intros [= <-]. constructor.
  - destruct (re_compile _) as [p|] eqn:Ep; [|discriminate].
    destruct (expressions cts) as [es'|]; [|discriminate].
    intros [= <-]. constructor; [done|]. by apply IH.
Qed.


Lemma expressions_groups (cts : list CommitType) (es : list (string * pattern)) :
  expressions cts = Some es -> map fst es = map ct_group cts.
Proof.
  intros H%expressions_some. induction H as [|ct gp cts es [Hg _] _ IH]; simpl; [done|].
  by rewrite Hg, IH.
Qed.

Lemma next_matcher_some (es : list (string * pattern)) (g : string) :
  g ∈ map fst es -> exists p, next_matcher es g = Some p.
Proof.
  induction es as [|[g' x] es IH]; simpl; [by intros ?%elem_of_nil|].
  destruct (String.eqb g' g) eqn:E; [by exists x|].
  intros [->|H]%elem_of_cons; [|auto]. by rewrite String.eqb_refl in E.
Qed.

(** With known references the loop that fills [lookup] ends, with one
    entry for each group. *)
Lemma build_lookup_total (es : list (string * pattern)) (ls : list LabelDef)
    (gs : list GroupMapping) :
  Forall (known_reference (map fst es) (labels_key_of ls)) gs ->
  exists lookup, build_lookup es ls gs = inr lookup /\ length lookup = length gs.
Proof.
  induction 1 as [|g gs [Hg Hl] _ (lookup & IH & Hlen)]; simpl; [by exists []|].
  destruct (first_label_some ls (label g) Hl) as [l ->].
  destruct (next_matcher_some es (group g) Hg) as [p ->].
  rewrite IH. exists ((p, l) :: lookup). simpl. by rewrite Hlen.
Qed.


Lemma load_error_kinds (cts : list CommitType) (c : Config) (x : exn) :
  load cts c = inl x -> (exists err, x = Labels_error err) \/ x = re_error.
Proof.
  unfold load. destruct (verify _ _ _) as [err|] eqn:Hv.
  - intros [= <-]. left. by exists err.
  - destruct (expressions _) as [es|] eqn:He; [|intros [= <-]; by right].
    apply verify_none in Hv. rewrite <- (expressions_groups _ _ He) in Hv.
    destruct (build_lookup_total _ _ _ Hv) as (lookup & -> & _). discriminate.
Qed.

(** X2: the [next] of the loop that fills [lookup] is never exhausted:
    after validation every group has a compiled pattern, so neither loading
    nor the run ends in [StopIteration]. *)
Theorem next_never_exhausted (pull_request : option string) (e : Env) :
  load (commit_types e) (cclc e) ≠ inl StopIteration /\
  (run pull_request e).2 ≠ Raise StopIteration.
Proof.
  assert (Hl : load (commit_types e) (cclc e) ≠ inl StopIteration).
  { intros [[err [=]]|[=]]%load_error_kinds. }
  split; [done|].
  unfold run. destruct (load _ _) as [x|lookup]; simpl; [congruence|].
  unfold session. destruct (negb _); [done|]. destruct (disabled _ _); [done|].
  by destruct (delete_ok e).
Qed.

(** X3: validation reports the first group mapping, in the order of the
    configuration, that has an unknown reference; when both references of
    that mapping are unknown, it is the group that is reported. *)
Theorem verify_reports_first (changelog_groups : list string)
    (labels_key : gset string) (pre post : list GroupMapping) (x : GroupMapping) :
  Forall (known_reference changelog_groups labels_key) pre ->
  ~ known_reference changelog_groups labels_key x ->
  verify changelog_groups labels_key (pre ++ x :: post)
  = Some (if bool_decide (group x ∈ changelog_groups)
          then label_not_found (label x) labels_key
          else group_not_found (group x) changelog_groups).
Proof.
  intros Hpre Hx. induction Hpre as [|y pre [Hg Hl] _ IH]; simpl.
  - case_bool_decide as Hg; simpl; [|done].
    case_bool_decide as Hl; simpl; [|done]. by destruct Hx.
  - rewrite (bool_decide_eq_true_2 _ Hg), (bool_decide_eq_true_2 _ Hl). exact IH.
Qed.

End Loading.

Lemma verify_reports_first_witness :
  Forall (known_reference ["feat"; "fix"] {[ "bug" ]})
    [ {| group := "fix"; label := "bug" |} ] /\
  ~ known_reference ["feat"; "fix"] {[ "bug" ]} {| group := "perf"; label := "speed" |} /\
  verify ["feat"; "fix"] {[ "bug" ]}
    ([ {| group := "fix"; label := "bug" |} ]
     ++ {| group := "perf"; label := "speed" |}
     :: [ {| group := "feat"; label := "enhancement" |} ])
  = Some (group_not_found "perf" ["feat"; "fix"]).
Proof.
  assert (Hpre : Forall (known_reference ["feat"; "fix"] {[ "bug" ]})
                   [ {| group := "fix"; label := "bug" |} ]).
  { constructor; [|constructor]. split; simpl; [in_list|].
    by apply elem_of_singleton. }
  assert (Hx : ~ known_reference ["feat"; "fix"] {[ "bug" ]}
                 {| group := "perf"; label := "speed" |}).
  { intros [_ H]. simpl in H. by apply elem_of_singleton in H. }
  split; [exact Hpre|]. split; [exact Hx|].
  exact (verify_reports_first ["feat"; "fix"] {[ "bug" ]} _
           [ {| group := "feat"; label := "enhancement" |} ] _ Hpre Hx).
Defined.

(** ** The calls of a run *)

Section Calls.
Context {R : Regex}.

Lemma disabled_spec (d : option string) (labels_of_pr : gset string) :
  disabled d labels_of_pr = true <->
  exists s, d = Some s /\ s ≠ EmptyString /\
            exists x, x ∈ labels_of_pr /\ contains s x = true.
Proof.
  unfold disabled. split.
  - intros [Ht Hex]%andb_prop. destruct d as [s|]; [|discriminate].
    exists s. split; [done|]. split; [by destruct s|].
    apply existsb_exists in Hex as (x & Hx & Hc). exists x. split; [|done].
    by apply elem_of_elements, list_elem_of_In.
  - intros (s & -> & Hs & x & Hx & Hc). by apply (disabled_true s _ x).
Qed.

(** X4: a [LabelsError] is raised only before the first API call: when the
    run ends in one, or [main] reports one, no call has been made, and the
    status is 1. *)
Theorem labels_error_before_any_call (pull_request : option string) (a : Argv)
    (e : Env) (err : LabelsError) :
  ((run pull_request e).2 = Raise (Labels_error err) -> (run pull_request e).1 = []) /\
  (console_error (main a e) = Some err ->
   calls (main a e) = [] /\ exit_code (main a e) = 1).
Proof.
  assert (Hrun : forall pr, (run pr e).2 = Raise (Labels_error err) -> (run pr e).1 = []).
  { intros pr. unfold run. destruct (load _ _) as [x|lookup]; simpl; [done|].
    unfold session. destruct (negb _); [done|]. destruct (disabled _ _); [done|].
    by destruct (delete_ok e). }
  split; [apply Hrun|]. unfold main. destruct (parse_arguments a) as [args|]; [|done].
  specialize (Hrun (arg_pull_request args)).
  destruct (run (arg_pull_request args) e) as [tr [|[x| | |]]]; simpl in *; try done.
  intros [= ->]. by rewrite Hrun.
Qed.

(** X5: [set_all] is only called right after a DELETE request that
    succeeded; and when the DELETE request has been sent and fails, the run
    stops there: [set_all] is not called, the status is 1 and nothing is
    reported through [Console.error]. *)
Theorem set_only_after_delete (a : Argv) (e : Env) :
  (forall ls, labels_set_all ls ∈ calls (main a e) ->
     delete_ok e = true /\
     exists tr, calls (main a e) = tr ++ [labels_delete; labels_set_all ls]) /\
  (delete_ok e = false -> labels_delete ∈ calls (main a e) ->
     exit_code (main a e) = 1 /\
     console_error (main a e) = None /\
     forall ls, labels_set_all ls ∉ calls (main a e)).
Proof.
  unfold main, run. destruct (parse_arguments a) as [args|]; simpl;
    [|split; [by intros ? ?%elem_of_nil | by intros _ ?%elem_of_nil]].
  destruct (load _ _) as [x|lookup]; simpl.
  - destruct x; simpl; (split; [by intros ? ?%elem_of_nil | by intros _ ?%elem_of_nil]).
  - unfold session. destruct (negb _); simpl;
      [split; [by intros ? ?%elem_of_nil | by intros _ ?%elem_of_nil]|].
    destruct (disabled _ _); simpl.
    + split; [intros ? [?|?%elem_of_nil]%elem_of_cons; done|].
      intros _ [?|?%elem_of_nil]%elem_of_cons; done.
    + destruct (delete_ok e); simpl; (split; [|intros Hd _]); try discriminate.
      * intros ls Hin. split; [done|].
        repeat (apply elem_of_cons in Hin as [Hin|Hin]; [try discriminate Hin|]);
          [|by apply elem_of_nil in Hin].
        injection Hin as ->. by exists [labels_get_all; pull_requests_commits].
      * intros ls Hin.
        repeat (apply elem_of_cons in Hin as [Hin|Hin]; [discriminate Hin|]).
        by apply elem_of_nil in Hin.
      * repeat split. intros ls Hin.
        repeat (apply elem_of_cons in Hin as [Hin|Hin]; [discriminate Hin|]).
        by apply elem_of_nil in Hin.
Qed.

(** X6: once the configuration is loaded and the identifier is there, the
    run stops after fetching the labels exactly when [disable_on] is a string
    that is not empty and occurs inside one of the labels of the pull
    request. *)
Theorem skip_iff_sentinel (pull_request : option string) (e : Env)
    (lookup : list (pattern * LabelDef)) :
  load (commit_types e) (cclc e) = inr lookup ->
  truthy pull_request = true ->
  (run pull_request e = ([labels_get_all], Return_) <->
   exists s, disable_on (cclc e) = Some s /\ s ≠ EmptyString /\
             exists x (p q : string), x ∈ pr_labels e /\ x = (p ++ s ++ q)%string).
Proof.
  intros Hl Hpr. unfold run, session. rewrite Hl, Hpr. simpl.
  destruct (disabled _ _) eqn:Hd.
  - split; [intros _|done]. apply disabled_spec in Hd as (s & Hs & Hne & x & Hx & Hc).
    apply contains_spec in Hc as (p & q & Hc). apply elem_of_list_to_set in Hx.
    exists s. repeat split; [done..|]. by exists x, p, q.
  - split; [destruct (delete_ok e); discriminate|].
    intros (s & Hs & Hne & x & p & q & Hx & Hc).
    assert (disabled (disable_on (cclc e)) (list_to_set (pr_labels e)) = true) as Hd'.
    { apply disabled_spec. exists s. repeat split; [done..|]. exists x.
      split; [by apply elem_of_list_to_set|]. apply contains_spec. by exists p, q. }
    congruence.
Qed.

Lemma resolve_again (c : Config) (es : list (string * pattern))
    (lookup : list (pattern * LabelDef)) (commits : list string)
    (original_pr_labels : gset string) :
  build_lookup es (labels c) (groups c) = inr lookup ->
  resolve c lookup commits (resolve c lookup commits original_pr_labels)
  = resolve c lookup commits original_pr_labels.
Proof.
  intros Hb.
  pose proof (matched_in_universe c es lookup commits (only_highest_priority c) Hb).
  unfold resolve, unique_labels. set_solver.
Qed.

(** X7: a second run changes nothing.  When a run has set the labels [ls]
    and runs again on the pull request that now carries [ls], with the same
    commits, it either stops at the sentinel or sets [ls] again. *)
Theorem second_run_same_labels (pull_request : option string) (e : Env)
    (ls : gset string) :
  run pull_request e
  = ([labels_get_all; pull_requests_commits; labels_delete; labels_set_all ls],
     Return_) ->
  run pull_request (with_labels e (elements ls)) = ([labels_get_all], Return_)
  \/ run pull_request (with_labels e (elements ls))
     = ([labels_get_all; pull_requests_commits; labels_delete; labels_set_all ls],
        Return_).
Proof.
  unfold run. simpl.
  destruct (load (commit_types e) (cclc e)) as [x|lookup] eqn:Hl; [discriminate|].
  destruct (load_spec _ _ _ Hl) as (es & _ & _ & Hb).
  unfold session. simpl. destruct (negb (truthy pull_request)); [discriminate|].
  destruct (disabled _ (list_to_set (pr_labels e))); [discriminate|].
  destruct (delete_ok e); [|discriminate].
  intros [= <-]. rewrite list_to_set_elements_L.
  destruct (disabled _ _); [by left|right].
  by rewrite (resolve_again _ es).
Qed.

End Calls.

Lemma labels_error_before_any_call_witness :
  console_error (main (R := Re.engine) (Sample.argv (Some "7")) (Sample.bad_env None))
  = Some (label_not_found "regression" {[ "enhancement"; "bug"; "documentation" ]}) /\
  calls (main (R := Re.engine) (Sample.argv (Some "7")) (Sample.bad_env None)) = [] /\
  exit_code (main (R := Re.engine) (Sample.argv (Some "7")) (Sample.bad_env None)) = 1.
Proof.
  assert (H : console_error (main (R := Re.engine) (Sample.argv (Some "7"))
                               (Sample.bad_env None))
              = Some (label_not_found "regression"
                        {[ "enhancement"; "bug"; "documentation" ]})).
  { vm_compute. reflexivity. }
  split; [exact H|].
  exact (proj2 (labels_error_before_any_call (R := Re.engine) None
                  (Sample.argv (Some "7")) (Sample.bad_env None) _) H).
Defined.

Lemma set_only_after_delete_witness :
  labels_set_all {[ "enhancement"; "bug"; "documentation"; "triage" ]}
  ∈ calls (main (R := Re.engine) (Sample.argv (Some "7"))
             (Sample.env None false ["triage"] Sample.commits)) /\
  exists tr,
    calls (main (R := Re.engine) (Sample.argv (Some "7"))
             (Sample.env None false ["triage"] Sample.commits))
    = tr ++ [labels_delete;
             labels_set_all {[ "enhancement"; "bug"; "documentation"; "triage" ]}].
Proof.
  assert (H : labels_set_all {[ "enhancement"; "bug"; "documentation"; "triage" ]}
              ∈ calls (main (R := Re.engine) (Sample.argv (Some "7"))
                         (Sample.env None false ["triage"] Sample.commits))).
  { vm_compute. in_list. }
  split; [exact H|].
  exact (proj2 (proj1 (set_only_after_delete (R := Re.engine) (Sample.argv (Some "7"))
                         (Sample.env None false ["triage"] Sample.commits)) _ H)).
Defined.

Lemma skip_iff_sentinel_witness :
  exists lookup,
    load (R := Re.engine) Sample.types
      (Sample.config "enhancement" "bug" "documentation" (Some "wip") false)
    = inr lookup /\
    truthy (Some "7") = true /\
    run (R := Re.engine) (Some "7")
      (Sample.env (Some "wip") false ["bug"] Sample.commits)
    ≠ ([labels_get_all], Return_).
Proof.
  destruct (load (R := Re.engine) Sample.types
              (Sample.config "enhancement" "bug" "documentation" (Some "wip") false))
    as [x|lookup] eqn:Hl; [discriminate Hl|].
  exists lookup. split; [reflexivity|]. split; [reflexivity|].
  intros Hrun.
  apply (skip_iff_sentinel (R := Re.engine) (Some "7")
           (Sample.env (Some "wip") false ["bug"] Sample.commits) lookup Hl eq_refl)
    in Hrun as (s & Hs & _ & x & p & q & Hx & Hc).
  injection Hs as <-. apply list_elem_of_singleton in Hx as ->.
  discriminate (proj2 (contains_spec "wip" "bug") (ex_intro _ p (ex_intro _ q Hc))).
Defined.

Lemma second_run_same_labels_witness :
  run (R := Re.engine) (Some "7") (Sample.env None true ["bug"; "triage"] Sample.commits)
  = ([labels_get_all; pull_requests_commits; labels_delete;
      labels_set_all {[ "enhancement"; "triage" ]}], Return_) /\
  run (R := Re.engine) (Some "7")
    (with_labels (Sample.env None true ["bug"; "triage"] Sample.commits)
       (elements ({[ "enhancement"; "triage" ]} : gset string)))
  = ([labels_get_all; pull_requests_commits; labels_delete;
      labels_set_all {[ "enhancement"; "triage" ]}], Return_).
Proof.
  assert (H : run (R := Re.engine) (Some "7")
                (Sample.env None true ["bug"; "triage"] Sample.commits)
              = ([labels_get_all; pull_requests_commits; labels_delete;
                  labels_set_all {[ "enhancement"; "triage" ]}], Return_)).
  { vm_compute. reflexivity. }
  split; [exact H|].
  destruct (second_run_same_labels (R := Re.engine) (Some "7")
              (Sample.env None true ["bug"; "triage"] Sample.commits) _ H)
    as [Hs|Hs]; [discriminate Hs | exact Hs].
Defined.


(** ** Which labels are set *)

Lemma head_sorted_desc_max (l : list LabelDef) (x : LabelDef) :
  head (sorted_desc l) = Some x -> forall y, y ∈ l -> (key y <= key x)%Z.
Proof.
  intros Hh y Hy. pose proof (sorted_desc_descending l) as Hd.
  rewrite <- (sorted_desc_perm l) in Hy.
  destruct (sorted_desc l) as [|z s]; simpl in Hh; [discriminate|].
  injection Hh as ->. apply StronglySorted_inv in Hd as [_ Hall].
  apply elem_of_cons in Hy as [->|Hy]; [lia|].
  by apply (proj1 (Forall_forall _ _) Hall).
Qed.

Section Matched.
Context {R : Regex}.

(** X8: without [only_highest_priority] a label name is among the matched
    names exactly when some group mapping has it as its label and some commit
    message matches the pattern of the first commit type of its group. *)
Theorem label_set_iff_group_matches (cts : list CommitType) (c : Config)
    (es : list (string * pattern)) (lookup : list (pattern * LabelDef))
    (commits : list string) (n : string) :
  load cts c = inr lookup ->
  expressions cts = Some es ->
  (n ∈ matched_names false lookup commits <->
   exists g p m,
     g ∈ groups c /\ label g = n /\ next_matcher es (group g) = Some p /\
     m ∈ commits /\ re_match p m = true).
Proof.
  intros (es' & Hv & He & Hb)%load_spec He'. rewrite He in He'. injection He' as ->.
  assert (Ho : Forall2 (fun g ml => next_matcher es (group g) = Some ml.1 /\
                                    first_label (labels c) (label g) = Some ml.2)
                 (groups c) lookup).
  { apply build_lookup_order; [|done]. apply verify_passes in Hv.
    eapply Forall_impl; [exact Hv|]. by intros ? [_ ?]. }
  rewrite matched_names_spec. unfold surviving. split.
  - intros (l & Hl & <-). rewrite sorted_desc_perm in Hl.
    apply collect_spec in Hl as (p & Hpl & (m & Hm & Hmatch)%any_match_spec).
    apply list_elem_of_lookup in Hpl as [i Hi].
    destruct (Forall2_lookup_r _ _ _ _ _ Ho Hi) as (g & Hg & Hn & Hf).
    simpl in *. exists g, p, m. repeat split; try done.
    + by eapply list_elem_of_lookup_2.
    + by apply first_label_spec in Hf as [_ ?].
  - intros (g & p & m & Hg & <- & Hn & Hm & Hmatch).
    apply list_elem_of_lookup in Hg as [i Hi].
    destruct (Forall2_lookup_l _ _ _ _ _ Ho Hi) as ([p' l] & Hpl & Hn' & Hf).
    simpl in *. rewrite Hn in Hn'. injection Hn' as <-.
    exists l. split; [|by apply first_label_spec in Hf as [_ ?]].
    rewrite sorted_desc_perm. apply collect_spec. exists p. split.
    + by eapply list_elem_of_lookup_2.
    + apply any_match_spec. by exists m.
Qed.

(** X9: with [only_highest_priority] at most one label survives; it is one
    of the collected labels, none of which has a larger priority (0 when the
    table has none), and it is there whenever a label was collected. *)
Theorem only_highest_keeps_one (lookup : list (pattern * LabelDef))
    (commits : list string) :
  (length (surviving true lookup commits) <= 1)%nat /\
  (forall l, l ∈ surviving true lookup commits -> l ∈ collect lookup commits) /\
  matched_names true lookup commits ⊆ matched_names false lookup commits /\
  (surviving true lookup commits = [] <-> collect lookup commits = []) /\
  (forall l l', l ∈ surviving true lookup commits -> l' ∈ collect lookup commits ->
                (default 0 (priority l') <= default 0 (priority l))%Z).
Proof.
  unfold matched_names, surviving. set (col := collect lookup commits).
  split; [|split; [|split; [|split]]].
  - rewrite length_take. lia.
  - intros l Hl. rewrite <- (sorted_desc_perm col). by apply (subseteq_take 1).
  - intros n (l & -> & Hl)%elem_of_list_to_set%list_elem_of_fmap.
    apply elem_of_list_to_set, list_elem_of_fmap. exists l. split; [done|].
    by apply (subseteq_take 1).
  - split.
    + intros Ht. apply Permutation_nil_r. rewrite <- (sorted_desc_perm col).
      by destruct (sorted_desc col).
    + by intros ->.
  - intros l l' Hl Hl'. apply (head_sorted_desc_max col l); [|done].
    destruct (sorted_desc col) as [|z s]; [by apply elem_of_nil in Hl|].
    simpl in Hl. rewrite take_0 in Hl. by apply list_elem_of_singleton in Hl as ->.
Qed.

(** X10: among the configured label names the result holds exactly the
    matched ones, so a configured label that is on the pull request without a
    matching commit is removed; outside the configured names the result
    holds exactly what the pull request had. *)
Theorem stale_managed_labels_removed (cts : list CommitType) (c : Config)
    (lookup : list (pattern * LabelDef)) (commits : list string)
    (original_pr_labels : gset string) :
  load cts c = inr lookup ->
  resolve c lookup commits original_pr_labels ∩ labels_key_of (labels c)
  = matched_names (only_highest_priority c) lookup commits /\
  resolve c lookup commits original_pr_labels ∖ labels_key_of (labels c)
  = original_pr_labels ∖ labels_key_of (labels c).
Proof.
  intros (es & _ & _ & Hb)%load_spec.
  pose proof (matched_in_universe c es lookup commits (only_highest_priority c) Hb).
  unfold resolve, unique_labels. split; set_solver.
Qed.

Lemma any_match_ext (m : pattern) (commits commits' : list string) :
  (forall x, x ∈ commits -> x ∈ commits') ->
  any_match m commits = true -> any_match m commits' = true.
Proof.
  intros Hsub (x & Hx & Hm)%any_match_spec. apply any_match_spec. exists x. auto.
Qed.

Lemma collect_ext (lookup : list (pattern * LabelDef)) (commits commits' : list string) :
  (forall x, x ∈ commits <-> x ∈ commits') ->
  collect lookup commits = collect lookup commits'.
Proof.
  intros Heq. induction lookup as [|[m l] lookup IH]; simpl; [done|].
  rewrite IH. destruct (any_match m commits) eqn:E1, (any_match m commits') eqn:E2;
    try done.
  - apply (any_match_ext m commits commits') in E1; [congruence|]. intros x. apply Heq.
  - apply (any_match_ext m commits' commits) in E2; [congruence|]. intros x. apply Heq.
Qed.

(** X11: the result depends on which commit messages there are, not on
    their order nor on how often one occurs. *)
Theorem commit_order_irrelevant (c : Config) (lookup : list (pattern * LabelDef))
    (commits commits' : list string) (original_pr_labels : gset string) :
  (forall x, x ∈ commits <-> x ∈ commits') ->
  collect lookup commits = collect lookup commits' /\
  resolve c lookup commits original_pr_labels
  = resolve c lookup commits' original_pr_labels.
Proof.
  intros Heq. pose proof (collect_ext lookup _ _ Heq) as Hc. split; [done|].
  unfold resolve, matched_names, surviving. by rewrite Hc.
Qed.

(** X12: without [only_highest_priority] more commits never take a label
    away: the result for a list of commits is contained in the result for any
    list that holds these commits. *)
Theorem more_commits_more_labels (c : Config) (lookup : list (pattern * LabelDef))
    (commits commits' : list string) (original_pr_labels : gset string) :
  only_highest_priority c = false ->
  (forall x, x ∈ commits -> x ∈ commits') ->
  resolve c lookup commits original_pr_labels
  ⊆ resolve c lookup commits' original_pr_labels.
Proof.
  intros Ho Hsub. unfold resolve. rewrite Ho. apply union_mono_r.
  intros n (l & Hl & <-)%matched_names_spec. apply matched_names_spec.
  exists l. split; [|done]. unfold surviving in *. rewrite sorted_desc_perm in *.
  apply collect_spec in Hl as (m & Hml & Hm). apply collect_spec. exists m.
  split; [done|]. by apply (any_match_ext m commits commits').
Qed.

End Matched.

Lemma label_set_iff_group_matches_witness :
  exists lookup es,
    load (R := Re.engine) Sample.types
      (Sample.config "enhancement" "bug" "documentation" None false) = inr lookup /\
    expressions (R := Re.engine) Sample.types = Some es /\
    "bug" ∈ matched_names false lookup ["chore: tidy"; "Fix - b"] /\
    "enhancement" ∉ matched_names false lookup ["chore: tidy"; "Fix - b"].
Proof.
  destruct (load (R := Re.engine) Sample.types
              (Sample.config "enhancement" "bug" "documentation" None false))
    as [x|lookup] eqn:Hl; [discriminate Hl|].
  destruct (expressions (R := Re.engine) Sample.types) as [es|] eqn:He;
    [|discriminate He].
  exists lookup, es. split; [reflexivity|]. split; [reflexivity|].
  pose proof (label_set_iff_group_matches (R := Re.engine) Sample.types
                (Sample.config "enhancement" "bug" "documentation" None false)
                es lookup ["chore: tidy"; "Fix - b"]) as Hiff.
  injection He as <-. split.
  - apply (Hiff "bug" Hl eq_refl).
    exists {| group := "fix"; label := "bug" |}, (Re.literal "fix" ++ Re.tail), "Fix - b".
    repeat split; [simpl; in_list | in_list].
  - intros (g & p & m & Hg & Hn & Hp & Hm & Hmatch)%(Hiff "enhancement" Hl eq_refl).
    simpl in Hg.
    repeat (apply elem_of_cons in Hg as [->|Hg]; [try discriminate Hn|]);
      [|by apply elem_of_nil in Hg].
    injection Hp as <-.
    repeat (apply elem_of_cons in Hm as [->|Hm]; [discriminate Hmatch|]).
    by apply elem_of_nil in Hm.
Defined.

Lemma only_highest_keeps_one_witness :
  exists lookup,
    load (R := Re.engine) Sample.types (Sample.shuffled_config true) = inr lookup /\
    surviving true lookup Sample.commits ≠ [] /\
    forall l, l ∈ surviving true lookup Sample.commits ->
              l = {| name := "enhancement"; priority := Some 10 |}.
Proof.
  destruct (load (R := Re.engine) Sample.types (Sample.shuffled_config true))
    as [x|lookup] eqn:Hl; [discriminate Hl|].
  exists lookup. split; [reflexivity|].
  assert (Hc : collect lookup Sample.commits
               = [ {| name := "documentation"; priority := Some 1 |};
                   {| name := "bug"; priority := Some 5 |};
                   {| name := "enhancement"; priority := Some 10 |} ]).
  { injection Hl as <-. reflexivity. }
  destruct (only_highest_keeps_one (R := Re.engine) lookup Sample.commits)
    as (_ & Hin & _ & Hnil & Hmax).
  split.
  - intros Hs. apply Hnil in Hs. rewrite Hc in Hs. discriminate Hs.
  - intros l Hs.
    assert (Hten : (default 0 (priority {| name := "enhancement"; priority := Some 10 |})
                    <= default 0 (priority l))%Z).
    { apply (Hmax l _ Hs). rewrite Hc. in_list. }
    apply Hin in Hs. rewrite Hc in Hs.
    repeat (apply elem_of_cons in Hs as [->|Hs]);
      [simpl in Hten; lia | simpl in Hten; lia | reflexivity | by apply elem_of_nil in Hs].
Defined.

Lemma stale_managed_labels_removed_witness :
  exists lookup,
    load (R := Re.engine) Sample.types
      (Sample.config "enhancement" "bug" "documentation" None false) = inr lookup /\
    resolve (Sample.config "enhancement" "bug" "documentation" None false) lookup
      ["docs: c"] {[ "bug"; "triage" ]}
    ∩ labels_key_of (Sample.three_labels "enhancement" "bug" "documentation")
    = matched_names false lookup ["docs: c"].
Proof.
  destruct (load (R := Re.engine) Sample.types
              (Sample.config "enhancement" "bug" "documentation" None false))
    as [x|lookup] eqn:Hl; [discriminate Hl|].
  exists lookup. split; [reflexivity|].
  exact (proj1 (stale_managed_labels_removed (R := Re.engine) Sample.types
                  (Sample.config "enhancement" "bug" "documentation" None false)
                  lookup ["docs: c"] {[ "bug"; "triage" ]} Hl)).
Defined.

Lemma commit_order_irrelevant_witness :
  (forall x : string,
     x ∈ ["fix: b"; "feat: a"] <-> x ∈ ["feat: a"; "fix: b"; "feat: a"]) /\
  forall lookup original_pr_labels,
    resolve (R := Re.engine)
      (Sample.config "enhancement" "bug" "documentation" None true) lookup
      ["fix: b"; "feat: a"] original_pr_labels
    = resolve (Sample.config "enhancement" "bug" "documentation" None true) lookup
        ["feat: a"; "fix: b"; "feat: a"] original_pr_labels.
Proof.
  assert (H : forall x : string,
             x ∈ ["fix: b"; "feat: a"] <-> x ∈ ["feat: a"; "fix: b"; "feat: a"]).
  { intros x. rewrite !elem_of_cons, !elem_of_nil. tauto. }
  split; [exact H|]. intros lookup original_pr_labels.
  exact (proj2 (commit_order_irrelevant (R := Re.engine)
                  (Sample.config "enhancement" "bug" "documentation" None true)
                  lookup _ _ original_pr_labels H)).
Defined.

Lemma more_commits_more_labels_witness :
  only_highest_priority (Sample.config "enhancement" "bug" "documentation" None false)
  = false /\
  (forall x : string, x ∈ ["fix: b"] -> x ∈ ["feat: a"; "fix: b"]) /\
  forall lookup original_pr_labels,
    resolve (R := Re.engine)
      (Sample.config "enhancement" "bug" "documentation" None false) lookup
      ["fix: b"] original_pr_labels
    ⊆ resolve (Sample.config "enhancement" "bug" "documentation" None false) lookup
        ["feat: a"; "fix: b"] original_pr_labels.
Proof.
  assert (H : forall x : string, x ∈ ["fix: b"] -> x ∈ ["feat: a"; "fix: b"]).
  { intros x ->%list_elem_of_singleton. in_list. }
  split; [reflexivity|]. split; [exact H|]. intros lookup original_pr_labels.
  exact (more_commits_more_labels (R := Re.engine)
           (Sample.config "enhancement" "bug" "documentation" None false)
           lookup _ _ original_pr_labels eq_refl H).
Defined.

(** ** Repeated groups and repeated label names *)

Section Shadowing.
Context {R : Regex}.

Lemma expressions_app (cts : list CommitType) (ct : CommitType)
    (es : list (string * pattern)) (p : pattern) :
  expressions cts = Some es ->
  re_compile (ct_message ct ++ "\s?[:|-]") = Some p ->
  expressions (cts ++ [ct]) = Some (es ++ [(ct_group ct, p)]).
Proof.
  intros He Hp. revert es He. induction cts as [|a cts IH]; simpl; intros es.
  - intros [= <-]. by rewrite Hp.
  - destruct (re_compile (ct_message a ++ "\s?[:|-]")) as [q|]; [|discriminate].
    destruct (expressions cts) as [es'|]; [|discriminate].
    intros [= <-]. by rewrite (IH es').
Qed.

Lemma next_matcher_app (es : list (string * pattern)) (g g' : string) (p : pattern) :
  g ∈ map fst es ->
  next_matcher (es ++ [(g, p)]) g' = next_matcher es g'.
Proof.
  induction es as [|[g0 x] es IH]; simpl; [by intros ?%elem_of_nil|].
  destruct (String.eqb g0 g') eqn:E; [done|].
  intros [->|H]%elem_of_cons; [|auto].
  clear IH. induction es as [|[g1 y] es IH]; simpl.
  - by rewrite E.
  - by destruct (String.eqb g1 g').
Qed.

Lemma build_lookup_app (es : list (string * pattern)) (g : string) (p : pattern)
    (ls : list LabelDef) (gs : list GroupMapping) :
  g ∈ map fst es ->
  build_lookup (es ++ [(g, p)]) ls gs = build_lookup es ls gs.
Proof.
  intros Hg. induction gs as [|x gs IH]; simpl; [done|].
  by rewrite IH, next_matcher_app.
Qed.

(** X13: only the first commit type of a group counts.  When loading
    succeeds, one more commit type at the end whose group is already there
    and whose pattern compiles leaves [lookup] as it is: its pattern never
    sets a label. *)
Theorem shadowed_commit_type_ignored (cts : list CommitType) (ct : CommitType)
    (c : Config) (lookup : list (pattern * LabelDef)) (p : pattern) :
  load cts c = inr lookup ->
  ct_group ct ∈ map ct_group cts ->
  re_compile (ct_message ct ++ "\s?[:|-]") = Some p ->
  load (cts ++ [ct]) c = inr lookup.
Proof.
  intros (es & Hv & He & Hb)%load_spec Hg Hp. unfold load.
  assert (Hv' : verify (map ct_group (cts ++ [ct])) (labels_key_of (labels c))
                  (groups c) = None).
  { apply verify_none. apply verify_none in Hv.
    eapply Forall_impl; [exact Hv|]. intros x [Hx Hl]. split; [|done].
    rewrite map_app. apply elem_of_app. by left. }
  rewrite Hv', (expressions_app _ _ _ _ He Hp), build_lookup_app; [done|].
  by rewrite (expressions_groups _ _ He).
Qed.

Lemma first_label_app (ls : list LabelDef) (l : LabelDef) (n : string) :
  name l ∈ labels_key_of ls ->
  first_label (ls ++ [l]) n = first_label ls n.
Proof.
  intros Hl. destruct (first_label ls n) as [x|] eqn:E.
  - clear Hl. induction ls as [|a ls IH]; simpl in *; [discriminate|].
    destruct (String.eqb n (name a)); [done|]. auto.
  - destruct (String.eqb n (name l)) eqn:En.
    + apply String.eqb_eq in En as ->.
      destruct (first_label_some ls (name l) Hl) as [? ?]. congruence.
    + clear Hl. induction ls as [|a ls IH]; simpl in *; [by rewrite En|].
      destruct (String.eqb n (name a)); [discriminate|]. auto.
Qed.

Lemma build_lookup_extra_label (es : list (string * pattern)) (ls : list LabelDef)
    (l : LabelDef) (gs : list GroupMapping) :
  name l ∈ labels_key_of ls ->
  build_lookup es (ls ++ [l]) gs = build_lookup es ls gs.
Proof.
  intros Hl. induction gs as [|x gs IH]; simpl; [done|].
  by rewrite IH, first_label_app.
Qed.

Lemma labels_key_extra_label (ls : list LabelDef) (l : LabelDef) :
  name l ∈ labels_key_of ls -> labels_key_of (ls ++ [l]) = labels_key_of ls.
Proof.
  unfold labels_key_of. rewrite map_app, list_to_set_app_L. simpl. set_solver.
Qed.

(** X14: of two label tables with one name only the first counts.  One more
    table at the end of [labels] whose name is already there changes neither
    the outcome of loading nor the resolved set: its priority is never
    used. *)
Theorem repeated_label_name_ignored (cts : list CommitType) (c : Config)
    (l : LabelDef) :
  name l ∈ labels_key_of (labels c) ->
  load cts (with_extra_label c l) = load cts c /\
  forall lookup commits original_pr_labels,
    resolve (with_extra_label c l) lookup commits original_pr_labels
    = resolve c lookup commits original_pr_labels.
Proof.
  intros Hl. split.
  - unfold load. simpl. rewrite (labels_key_extra_label _ _ Hl).
    destruct (verify _ _ _); [done|]. destruct (expressions cts); [|done].
    by apply build_lookup_extra_label.
  - intros lookup commits o. unfold resolve. simpl.
    by rewrite (labels_key_extra_label _ _ Hl).
Qed.

End Shadowing.

Lemma shadowed_commit_type_ignored_witness :
  exists lookup,
    load (R := Re.engine) Sample.types
      (Sample.config "enhancement" "bug" "documentation" None false) = inr lookup /\
    "fix" ∈ map ct_group Sample.types /\
    load (R := Re.engine)
      (Sample.types ++ [ {| ct_message := "bugfix"; ct_group := "fix" |} ])
      (Sample.config "enhancement" "bug" "documentation" None false) = inr lookup.
Proof.
  destruct (load (R := Re.engine) Sample.types
              (Sample.config "enhancement" "bug" "documentation" None false))
    as [x|lookup] eqn:Hl; [discriminate Hl|].
  assert (Hg : "fix" ∈ map ct_group Sample.types) by (simpl; in_list).
  exists lookup. split; [reflexivity|]. split; [exact Hg|].
  exact (shadowed_commit_type_ignored (R := Re.engine) Sample.types
           {| ct_message := "bugfix"; ct_group := "fix" |}
           (Sample.config "enhancement" "bug" "documentation" None false)
           lookup (Re.literal "bugfix" ++ Re.tail) Hl Hg eq_refl).
Defined.

Lemma repeated_label_name_ignored_witness :
  "bug" ∈ labels_key_of (Sample.three_labels "enhancement" "bug" "documentation") /\
  load (R := Re.engine) Sample.types
    (with_extra_label (Sample.config "enhancement" "bug" "documentation" None true)
       {| name := "bug"; priority := Some 99 |})
  = load Sample.types (Sample.config "enhancement" "bug" "documentation" None true).
Proof.
  assert (H : "bug" ∈ labels_key_of
                        (Sample.three_labels "enhancement" "bug" "documentation")).
  { apply elem_of_list_to_set. simpl. in_list. }
  split; [exact H|].
  exact (proj1 (repeated_label_name_ignored (R := Re.engine) Sample.types
                  (Sample.config "enhancement" "bug" "documentation" None true)
                  {| name := "bug"; priority := Some 99 |} H)).
Defined.

(** ** Keywords and their patterns *)

Lemma keyword_matcher_spec_witness :
  Re.plain "fix" = true /\
  exists p,
    Re.compile ("fix" ++ "\s?[:|-]") = Some p /\
    Re.matches p "FIX - crash on start" = true /\
    Re.matches p "fixes: crash on start" = false.
Proof.
  split; [reflexivity|].
  destruct (keyword_matcher_spec "fix" "FIX - crash on start" eq_refl)
    as (p & Hp & Hm).
  exists p. split; [exact Hp|]. split.
  - apply Hm. exists "FIX", " "%string, "-"%char, " crash on start".
    split; [reflexivity|]. split; [reflexivity|]. split; [|by right; right].
    right. exists " "%char. split; reflexivity.
  - injection Hp as <-. reflexivity.
Defined.

(** X16: a [^] in front of a keyword changes nothing, since [match] only
    looks at the start of the message: the patterns of [^t] and of [t] match
    the same messages. *)
Theorem caret_is_redundant (t m : string) :
  Re.plain t = true ->
  exists p q,
    Re.compile (t ++ "\s?[:|-]") = Some p /\
    Re.compile ("^" ++ t ++ "\s?[:|-]") = Some q /\
    Re.matches q m = Re.matches p m.
Proof.
  intros Ht. exists (Re.literal t ++ Re.tail), (Re.Bol :: Re.literal t ++ Re.tail).
  split; [by apply compile_keyword|]. split; [|done].
  unfold Re.compile.
  change (Re.parse Re.Top [] ("^" ++ t ++ "\s?[:|-]"))
    with (Re.parse Re.Top [Re.Bol] (t ++ "\s?[:|-]")).
  rewrite (parse_plain _ _ _ Ht). simpl.
  rewrite rev_app_distr, rev_involutive. simpl. by rewrite <- !app_assoc.
Qed.

Lemma caret_is_redundant_witness :
  Re.plain "add" = true /\
  exists p q,
    Re.compile ("add" ++ "\s?[:|-]") = Some p /\
    Re.compile ("^" ++ "add" ++ "\s?[:|-]") = Some q /\
    Re.matches q "Add: a flag" = Re.matches p "Add: a flag".
Proof.
  split; [reflexivity|]. exact (caret_is_redundant "add" "Add: a flag" eq_refl).
Defined.



